(** * onedrive-d: drive API wrapper, CLI daemon entry point, test helpers

    A shallow embedding of
    - [onedrive_d/api/drives.py]   ([DriveRoot], [DriveObject]),
    - [onedrive_d/cli/cli_main.py] (the daemon's [main] and what it calls),
    - [onedrive_d/tests/__init__.py] ([to_underscore_name]),
    followed by the properties proved about them.

    Conventions.  Python [str] values that the code only compares or
    concatenates (URIs, ids, paths, messages) are Rocq strings.  A function
    that can raise returns a [Py.result].  Calls that leave the process
    (HTTP requests, token renewal, the file system, the logger, the task pool)
    are recorded in a trace of calls, and what the outside world answers is
    read from a script given as an argument.  A [while True] loop consumes one
    entry of its script per iteration; [None] as a result means that the script
    ended while the loop was still running. *)

From Stdlib Require Import ZArith NArith List String Ascii Bool Lia.
From stdpp Require Import base option list gmap strings pretty sorting.

(** ** Deserialized JSON, as [response.json()] returns it *)

Module Json.

(** A number keeps its literal: the embedded code never computes with one.
    The members of an object have pairwise different keys, as the keys of a
    Python [dict] have. *)
#[warnings="-register-all"]
Inductive value : Type :=
| Null
| Bool (b : bool)
| Number (literal : string)
| Str (s : string)
| Arr (items : list value)
| Obj (members : list (string * value)).

Fixpoint assoc (k : string) (members : list (string * value)) : option value :=
  match members with
  | [] => None
  | (k', v) :: rest => if String.eqb k' k then Some v else assoc k rest
  end.

(** The one-character strings of [s], in order: what iterating a [str] yields. *)
Fixpoint chars (s : string) : list value :=
  match s with
  | EmptyString => []
  | String c rest => Str (String c EmptyString) :: chars rest
  end.

End Json.

(** ** Python values and exceptions *)

Module Py.

Inductive exn : Type :=
| OneDriveError (payload : Json.value)
| OneDriveTokenExpiredError
| KeyError (key : string)
| TypeError
| OtherError (name : string).

Inductive result (A : Type) : Type :=
| Return (a : A)
| Raise (e : exn).
Arguments Return {A} a.
Arguments Raise {A} e.

Definition bind {A B : Type} (r : result A) (k : A -> result B) : result B :=
  match r with
  | Return a => k a
  | Raise e => Raise e
  end.

Notation "'let?' x ':=' r 'in' k" := (bind r (fun x => k))
  (at level 10, x name, r at level 100, k at level 200).

(** [v[k]] for a [str] key [k]. *)
Definition getitem (v : Json.value) (k : string) : result Json.value :=
  match v with
  | Json.Obj members =>
      match Json.assoc k members with
      | Some x => Return x
      | None => Raise (KeyError k)
      end
  | _ => Raise TypeError
  end.

(** [for d in v]: the values the loop visits. *)
Definition iter (v : Json.value) : result (list Json.value) :=
  match v with
  | Json.Arr items => Return items
  | Json.Str s => Return (Json.chars s)
  | Json.Obj members => Return (map (fun kv => Json.Str (fst kv)) members)
  | _ => Raise TypeError
  end.

(** [s + v] for a [str] [s]. *)
Definition add_str (s : string) (v : Json.value) : result string :=
  match v with
  | Json.Str t => Return (s +:+ t)
  | _ => Raise TypeError
  end.

End Py.

(** ** onedrive_d/api/drives.py *)

Module Drives.
Import Py.

(** [requests.codes.ok] and [requests.codes.created]. *)
Definition codes_ok : Z := 200.
Definition codes_created : Z := 201.

Record Client : Type := { API_URI : string }.
Record Account : Type := { client : Client }.

(** A response of [account.session]: its status and its body, deserialized. *)
Record Response : Type := { status_code : Z; json : Json.value }.

(** The calls that reach the account, in the order they are made. *)
Inductive call : Type :=
| SessionGet (uri : string)
| SessionPost (uri : string) (data : Json.value)
| RenewTokens.

(** What [session.get] or [session.post] does when called: it returns a
    response or raises. *)
Definition outcome : Type := result Response.

Record DriveRoot : Type := { account : Account }.

Record DriveObject : Type :=
  { root : DriveRoot; _data : Json.value; drive_uri : string }.

(** [DriveObject.__init__]. *)
Definition DriveObject_init (root : DriveRoot) (data : Json.value)
  : result DriveObject :=
  let? i := getitem data "id" in
  let? uri := add_str (API_URI (client (account root)) +:+ "/drives/") i in
  Return {| root := root; _data := data; drive_uri := uri |}.

(** The [id] property. *)
Definition id (self : DriveObject) : result Json.value :=
  getitem (_data self) "id".

(** [while True: try: <body on session.get(uri)> except
    OneDriveTokenExpiredError: renew_tokens()]: the loop shared by
    [get_all_drives] and [get_drive].  [renew_tokens] (accounts.py) is taken
    to return. *)
Fixpoint retry_on_expiry {A : Type} (uri : string)
    (body : Response -> result A) (script : list outcome) (trace : list call)
  : option (result A) * list call :=
  match script with
  | [] => (None, trace)
  | o :: script' =>
      let trace := trace ++ [SessionGet uri] in
      match bind o body with
      | Raise OneDriveTokenExpiredError =>
          retry_on_expiry uri body script' (trace ++ [RenewTokens])
      | r => (Some r, trace)
      end
  end.

(** The [for d in ...: drives[d['id']] = DriveObject(self, d)] loop.  The
    right-hand side is evaluated first, and it raises unless [d['id']] is a
    [str], so the keys that reach the dictionary are strings. *)
Fixpoint collect_drives (self : DriveRoot) (ds : list Json.value)
    (drives : gmap string DriveObject) : result (gmap string DriveObject) :=
  match ds with
  | [] => Return drives
  | d :: ds' =>
      let? obj := DriveObject_init self d in
      let? key := getitem d "id" in
      match key with
      | Json.Str k => collect_drives self ds' (<[k := obj]> drives)
      | _ => Raise TypeError
      end
  end.

Definition get_all_drives_body (self : DriveRoot) (request : Response)
  : result (gmap string DriveObject) :=
  if negb (status_code request =? codes_ok)%Z
  then Raise (OneDriveError (json request))
  else
    let? value := getitem (json request) "value" in
    let? ds := iter value in
    collect_drives self ds ∅.

Definition get_all_drives_uri (self : DriveRoot) : string :=
  API_URI (client (account self)) +:+ "/drives".

Definition get_all_drives (self : DriveRoot) (script : list outcome)
  : option (result (gmap string DriveObject)) * list call :=
  retry_on_expiry (get_all_drives_uri self) (get_all_drives_body self) script [].

Definition get_drive_uri (self : DriveRoot) (drive_id : option string)
    (list_children : bool) : string :=
  let uri := API_URI (client (account self)) +:+ "/drive" in
  let uri := match drive_id with
             | Some i => (uri +:+ "s/") +:+ i
             | None => uri
             end in
  if list_children then uri +:+ "?expand=children" else uri.

Definition get_drive_body (self : DriveRoot) (request : Response)
  : result DriveObject :=
  if negb (status_code request =? codes_ok)%Z
  then Raise (OneDriveError (json request))
  else DriveObject_init self (json request).

Definition get_drive (self : DriveRoot) (drive_id : option string)
    (list_children : bool) (script : list outcome)
  : option (result DriveObject) * list call :=
  retry_on_expiry (get_drive_uri self drive_id list_children)
    (get_drive_body self) script [].

Definition get_default_drive (self : DriveRoot) (list_children : bool)
    (script : list outcome) : option (result DriveObject) * list call :=
  get_drive self None list_children script.

Definition get_item_uri (self : DriveObject) (item_id item_path : option string)
  : string :=
  let uri := drive_uri self in
  match item_id, item_path with
  | Some i, _ => (uri +:+ "/items/") +:+ i
  | None, Some p => (uri +:+ "/root:/") +:+ p
  | None, None => uri +:+ "/root"
  end.

(** [items.OneDriveItem] (items.py): the item object built from the
    deserialized dictionary. *)
Record OneDriveItem : Type := { item_data : Json.value }.

(** The dictionary [create_dir] serializes as the request body. *)
Definition create_dir_data (name conflict_behavior : string) : Json.value :=
  Json.Obj [ ("name", Json.Str name);
             ("folder", Json.Obj []);
             ("@name.conflictBehavior", Json.Str conflict_behavior) ].

(** [create_dir]: one [session.post], answered by [o]; no retry loop.  The
    body of the request is recorded as the value handed to [json.dumps]. *)
Definition create_dir (self : DriveObject) (name : string)
    (parent_id parent_path : option string) (conflict_behavior : string)
    (o : outcome) : result OneDriveItem * list call :=
  let data := create_dir_data name conflict_behavior in
  let uri := get_item_uri self parent_id parent_path in
  (let? response := o in
   if negb (status_code response =? codes_created)%Z
   then Raise (OneDriveError (json response))
   else Return {| item_data := json response |},
   [SessionPost uri data]).

(** *** Reading the calls of a run *)

Definition expired : outcome := Raise OneDriveTokenExpiredError.

(** The calls one expired request causes: the request and the renewal. *)
Definition expired_round (uri : string) : list call :=
  [SessionGet uri; RenewTokens].

Fixpoint expired_rounds (k : nat) (uri : string) : list call :=
  match k with
  | O => []
  | S k' => expired_round uri ++ expired_rounds k' uri
  end.

Definition is_renewal (c : call) : bool :=
  match c with RenewTokens => true | _ => false end.

Definition is_request (c : call) : bool :=
  match c with SessionGet _ => true | _ => false end.

Definition renewals (tr : list call) : nat := length (List.filter is_renewal tr).

Definition requests (tr : list call) : nat := length (List.filter is_request tr).

(** One renewal and one retry, for a run of one of the two operations:
    whenever the first request signals expired credentials, the calls made
    are one renewal and at most two requests. *)
Definition renews_and_retries_once {A : Type}
    (run : list outcome -> option (result A) * list call) : Prop :=
  forall script, renewals (snd (run (expired :: script))) = 1
                 /\ requests (snd (run (expired :: script))) <= 2.

(** What indexing and concatenating a payload of the wrong shape raises. *)
Definition shape_error (e : exn) : Prop :=
  match e with
  | KeyError _ | TypeError => True
  | _ => False
  end.

(** The drive object [DriveObject(self, d)] when [d['id']] is the string [i]. *)
Definition built (self : DriveRoot) (d : Json.value) (i : string) : DriveObject :=
  {| root := self; _data := d;
     drive_uri := (API_URI (client (account self)) +:+ "/drives/") +:+ i |}.

(** [d] is a dictionary whose ['id'] is a string. *)
Definition has_str_id (d : Json.value) : bool :=
  match getitem d "id" with
  | Return (Json.Str _) => true
  | _ => false
  end.

(** *** Sample values *)

Definition root0 : DriveRoot :=
  {| account := {| client := {| API_URI := "https://api.onedrive.com/v1.0" |} |} |}.

Definition drive_a : Json.value :=
  Json.Obj [("id", Json.Str "a"); ("driveType", Json.Str "personal")].

Definition listing : Response :=
  {| status_code := 200; json := Json.Obj [("value", Json.Arr [drive_a])] |}.

Definition created : Response :=
  {| status_code := 201;
     json := Json.Obj [("id", Json.Str "d1"); ("name", Json.Str "docs")] |}.

End Drives.

(** ** onedrive_d/cli/cli_main.py *)

Module CliMain.

(** The [choices] of [--log-level]. *)
Inductive LogLevel : Type := DEBUG | INFO | WARNING | ERROR | CRITICAL.

(** [getattr(logging, name)] for these names. *)
Definition logging_level (l : LogLevel) : Z :=
  match l with
  | DEBUG => 10
  | INFO => 20
  | WARNING => 30
  | ERROR => 40
  | CRITICAL => 50
  end.

(** The namespace [parse_args] returns. *)
Record Args : Type := { log_level : LogLevel; log_file : option string }.

(** [parse_args], from the two options as given on the command line ([None]
    for an option that is not given): [--log-level] defaults to DEBUG and
    [--log-file] to None. *)
Definition parse_args (level : option LogLevel) (file : option string) : Args :=
  {| log_level := default DEBUG level; log_file := file |}.

(** What [cli_main] uses of [onedrive_d.common.tasks] and
    [onedrive_d.store.task_pool], which are not part of the embedded files:
    [root_task drive] is [SynchronizeDirTask(TaskMixin(drive=drive, ...),
    local_parent_path='', name='')], the other three are the methods of the
    task pool that [add_initial_tasks] calls. *)
Class TaskStore (Drive Task Key Pool : Type) : Type :=
  { root_task : Drive -> Task;
    get_task_path : Task -> Key;
    has_pending_task : Pool -> Key -> bool;
    add_task : Pool -> Task -> Pool }.

(** The double quote, for the two messages that quote a path. *)
Definition dquote : string := String (ascii_of_nat 34) EmptyString.

Section Daemon.
Context {Drive Task Key Pool : Type} `{!TaskStore Drive Task Key Pool}.

(** [onedrive_d.cli.CONFIG_DIR]. *)
Variable CONFIG_DIR : string.

(** What the main thread does to the world, in order. *)
Inductive event : Type :=
| OpenForWriting (path : string) (error : option string)
| PrintStderr (line : string)
| InitLogger (min_level : Z) (path : option string)
| GetLogger (name : string)
| Log (level : LogLevel) (message : string)
| GetCurrentUserConfig
| TakeEffect
| NetworkMonitorStart
| NewPersonalClient
| OpenAccountStorage (path : string)
| OpenDriveStorage (path : string)
| GetAllAccounts
| OpenItemStorageManager (dir : string)
| TaskPoolGetInstance
| StartWorker (name : string)
| HasPendingTask (key : Key) (answer : bool)
| AddTask (task : Task)
| Sleep (seconds : Z)
| Exit (code : Z).

(** The world the main thread runs in.  [open_error p] is [str(e)] of the
    [OSError] that [open(p, 'w')] raises, if it raises one; [files] holds the
    regular files with their contents; [all_drives] is what
    [drive_store.get_all_drives()] returns and [pool] the state of the task
    pool; [num_consumers] is [user_conf.num_consumers]. *)
Record World : Type :=
  { files : gmap string string;
    open_error : string -> option string;
    isdir : string -> bool;
    num_consumers : nat;
    all_drives : list (string * Drive);
    pool : Pool;
    trace : list event }.

Definition emit (e : event) (w : World) : World :=
  {| files := files w; open_error := open_error w; isdir := isdir w;
     num_consumers := num_consumers w; all_drives := all_drives w;
     pool := pool w; trace := trace w ++ [e] |}.

Definition set_files (fs : gmap string string) (w : World) : World :=
  {| files := fs; open_error := open_error w; isdir := isdir w;
     num_consumers := num_consumers w; all_drives := all_drives w;
     pool := pool w; trace := trace w |}.

Definition set_pool (p : Pool) (w : World) : World :=
  {| files := files w; open_error := open_error w; isdir := isdir w;
     num_consumers := num_consumers w; all_drives := all_drives w;
     pool := p; trace := trace w |}.

(** ['Cannot open log file "%s": %s. Use stderr.' % (path, str(e))] *)
Definition cannot_open_message (path msg : string) : string :=
  "Cannot open log file " +:+ dquote +:+ path +:+ dquote +:+ ": " +:+ msg
  +:+ ". Use stderr.".

(** [with open(path, 'w'): pass]: the file is created or truncated, then
    closed. *)
Definition open_for_writing (path : string) (w : World) : World :=
  emit (OpenForWriting path None) (set_files (<[path := ""]> (files w)) w).

Definition fix_log_args (args : Args) (w : World) : Args * World :=
  let '(args, w) :=
    match log_file args with
    | None => (args, w)
    | Some path =>
        match open_error w path with
        | None => (args, open_for_writing path w)
        | Some msg =>
            ({| log_level := log_level args; log_file := None |},
             emit (PrintStderr (cannot_open_message path msg))
               (emit (OpenForWriting path (Some msg)) w))
        end
    end in
  (args, emit (InitLogger (logging_level (log_level args)) (log_file args)) w).

(** One turn of the [for key, drive in all_drives.items()] loop. *)
Definition add_initial_task (w : World) (kd : string * Drive) : World :=
  let task := root_task (snd kd) in
  let key := get_task_path task in
  let pending := has_pending_task (pool w) key in
  let w := emit (HasPendingTask key pending) w in
  if pending then w
  else emit (AddTask task) (set_pool (add_task (pool w) task) w).

Definition add_initial_tasks_for (drives : list (string * Drive)) (w : World)
  : World :=
  fold_left add_initial_task drives w.

Definition add_initial_tasks (w : World) : World :=
  add_initial_tasks_for (all_drives w) w.

Definition load_item_storage (w : World) : World :=
  emit (OpenItemStorageManager CONFIG_DIR) w.

Definition load_task_storage (w : World) : World :=
  emit TaskPoolGetInstance w.

Definition load_user_config (w : World) : World :=
  let w := emit GetCurrentUserConfig w in
  let w := emit TakeEffect w in
  let w := emit NetworkMonitorStart w in
  let w := emit NewPersonalClient w in
  let w := emit (OpenAccountStorage (CONFIG_DIR +:+ "/accounts.db")) w in
  let w := emit (OpenDriveStorage (CONFIG_DIR +:+ "/drives.db")) w in
  emit GetAllAccounts w.

(** ['Configuration directory "%s" does not exist. Please run
    `onedrived-pref` first.'], with [CONFIG_DIR] filled in by the logger. *)
Definition no_config_dir_message : string :=
  "Configuration directory " +:+ dquote +:+ CONFIG_DIR +:+ dquote
  +:+ " does not exist. Please run `onedrived-pref` first.".

(** A function that can call [sys.exit] returns the exit code when it did. *)
Definition check_config_dir (w : World) : World * option Z :=
  if isdir w CONFIG_DIR then (w, None)
  else (emit (Exit 1) (emit (Log CRITICAL no_config_dir_message) w), Some 1%Z).

(** [for i in range(n)], from [i] on: the names are ['Worker' + str(i)]. *)
Fixpoint start_workers_from (i n : nat) (w : World) : World :=
  match n with
  | O => w
  | S n' => start_workers_from (S i) n' (emit (StartWorker ("Worker" +:+ pretty i)) w)
  end.

Definition start_task_workers (w : World) : World :=
  start_workers_from 0 (num_consumers w) w.

(** What happens around the main thread during one turn of the seeding loop:
    nothing but the worker threads changing the task pool while the main
    thread sleeps, or a [KeyboardInterrupt] (or [InterruptedError]) raised
    before the turn's log record, after [k] drives of [add_initial_tasks], or
    during the sleep. *)
Inductive tick : Type :=
| Quiet (workers : Pool -> Pool)
| InterruptInLog
| InterruptInAdd (k : nat)
| InterruptInSleep.

(** The [except (KeyboardInterrupt, InterruptedError)] handler. *)
Definition exiting (w : World) : World * option Z :=
  (emit (Exit 0) (emit (Log INFO "Exiting...") w), Some 0%Z).

Definition sleep_seconds : Z := 5 * 60.

Fixpoint refill_tasks (script : list tick) (w : World) : World * option Z :=
  match script with
  | [] => (w, None)
  | t :: script' =>
      match t with
      | InterruptInLog => exiting w
      | InterruptInAdd k =>
          exiting (add_initial_tasks_for (take k (all_drives w))
                     (emit (Log INFO "Refilling initial tasks...") w))
      | InterruptInSleep =>
          exiting (emit (Sleep sleep_seconds)
                     (add_initial_tasks
                        (emit (Log INFO "Refilling initial tasks...") w)))
      | Quiet workers =>
          let w := emit (Log INFO "Refilling initial tasks...") w in
          let w := add_initial_tasks w in
          let w := emit (Sleep sleep_seconds) w in
          refill_tasks script' (set_pool (workers (pool w)) w)
      end
  end.

Definition main (level : option LogLevel) (file : option string)
    (script : list tick) (w : World) : World * option Z :=
  let '(args, w) := fix_log_args (parse_args level file) w in
  let w := emit (GetLogger "Main") w in
  match check_config_dir w with
  | (w, Some code) => (w, Some code)
  | (w, None) =>
      let w := load_user_config w in
      let w := load_item_storage w in
      let w := load_task_storage w in
      let w := start_task_workers w in
      refill_tasks script w
  end.

(** *** Reading the trace *)

(** [evs] added at the end of the trace. *)
Definition emits (evs : list event) (w : World) : World :=
  {| files := files w; open_error := open_error w; isdir := isdir w;
     num_consumers := num_consumers w; all_drives := all_drives w;
     pool := pool w; trace := trace w ++ evs |}.

(** The events [start_task_workers] leaves for the workers [i], ...,
    [i + n - 1]. *)
Definition worker_starts (i n : nat) : list event :=
  map (fun j => StartWorker ("Worker" +:+ pretty j)) (seq i n).

(** The events of the start-up, after logging is set up and up to the
    workers. *)
Definition startup : list event :=
  [GetLogger "Main"; GetCurrentUserConfig; TakeEffect; NetworkMonitorStart;
   NewPersonalClient; OpenAccountStorage (CONFIG_DIR +:+ "/accounts.db");
   OpenDriveStorage (CONFIG_DIR +:+ "/drives.db"); GetAllAccounts;
   OpenItemStorageManager CONFIG_DIR; TaskPoolGetInstance].

(** The key of the root task of a drive of the drive store. *)
Definition root_key (kd : string * Drive) : Key :=
  get_task_path (root_task (snd kd)).

(** The key a [has_pending_task] call asks about. *)
Definition asked_key (e : event) : option Key :=
  match e with
  | HasPendingTask k _ => Some k
  | _ => None
  end.

Definition is_pool_call (e : event) : Prop :=
  match e with
  | HasPendingTask _ _ | AddTask _ => True
  | _ => False
  end.

(** Every [AddTask] of a trace comes right after the pool's answer that no task
    is pending for the key of the task added. *)
Definition guarded (added : list event) : Prop :=
  forall pre t post, added = pre ++ AddTask t :: post ->
    exists pre', pre = pre' ++ [HasPendingTask (get_task_path t) false].

(** The one property of the task pool that [add_initial_tasks] relies on:
    adding a task leaves a key that has a pending task with one. *)
Definition add_task_keeps_pending : Prop :=
  forall (p : Pool) (t : Task) (k : Key),
    has_pending_task p k = true -> has_pending_task (add_task p t) k = true.

(** One full turn of the seeding loop, as it shows in the trace: the log
    record, one question to the pool for every drive of the drive store, each
    followed by [AddTask] when the answer is no, and the sleep of five
    minutes (300 seconds). *)
Definition seeding_round (drives : list (string * Drive)) (block : list event)
  : Prop :=
  exists calls,
    block = Log INFO "Refilling initial tasks..." :: calls ++ [Sleep 300]
    /\ Forall is_pool_call calls
    /\ omap asked_key calls = map root_key drives
    /\ guarded calls.

Definition is_interrupt (t : tick) : bool :=
  match t with
  | Quiet _ => false
  | _ => true
  end.

(** The steps of the process lifecycle, and the step an event belongs to
    (setting up logging and creating the API client belong to none; the log
    record of the interrupt handler counts with the loop that it ends). *)
Inductive step : Type :=
| Configuration | Monitor | Stores | Workers | Seeding | Leaving.

Definition step_of (e : event) : option step :=
  match e with
  | GetCurrentUserConfig | TakeEffect => Some Configuration
  | NetworkMonitorStart => Some Monitor
  | OpenAccountStorage _ | OpenDriveStorage _ | OpenItemStorageManager _
  | TaskPoolGetInstance => Some Stores
  | StartWorker _ => Some Workers
  | Log INFO _ | HasPendingTask _ _ | AddTask _ | Sleep _ => Some Seeding
  | Exit _ => Some Leaving
  | _ => None
  end.

Definition steps (tr : list event) : list step := omap step_of tr.

(** The steps of a trace come in the order [rank] gives. *)
Definition in_order (rank : step -> nat) (tr : list event) : Prop :=
  StronglySorted le (rank <$> steps tr).

(** The order the specification states: configuration, stores, network
    monitor, workers, seeding loop, exit. *)
Definition stated_rank (s : step) : nat :=
  match s with
  | Configuration => 0
  | Stores => 1
  | Monitor => 2
  | Workers => 3
  | Seeding => 4
  | Leaving => 5
  end.

(** The order of [main]: configuration, network monitor, stores, workers,
    seeding loop, exit. *)
Definition main_rank (s : step) : nat :=
  match s with
  | Configuration => 0
  | Monitor => 1
  | Stores => 2
  | Workers => 3
  | Seeding => 4
  | Leaving => 5
  end.

End Daemon.

End CliMain.

(** ** onedrive_d/tests/__init__.py *)

Module Tests.

(** A Python [str], as the sequence of its code points. *)
Definition str : Type := list N.

(** The character classes of the pattern: [[A-Z]], [[a-z]] and [[0-9]]. *)
Definition is_upper (c : N) : bool := (65 <=? c)%N && (c <=? 90)%N.
Definition is_lower (c : N) : bool := (97 <=? c)%N && (c <=? 122)%N.
Definition is_digit (c : N) : bool := (48 <=? c)%N && (c <=? 57)%N.

Definition underscore : N := 95.

(** [camel_to_underscore], the compiled pattern
    [((?<=[a-z0-9])[A-Z]|(?!^)[A-Z](?=[a-z]))], as the test whether it matches
    at a position: [prev] is the character before the position ([None] at the
    start of the string, the only place where [^] matches), [c] the character
    at it and [next] the one after it ([None] at the end).  A match is the one
    character [c]. *)
Definition camel_to_underscore (prev : option N) (c : N) (next : option N)
  : bool :=
  (match prev with Some p => is_lower p || is_digit p | None => false end
   && is_upper c)
  || (match prev with Some _ => true | None => false end
      && is_upper c
      && match next with Some n => is_lower n | None => false end).

(** [camel_to_underscore.sub(r'_\1', s)], from a position on: the matches
    are found in the string as given, left to right, and each is replaced by
    an underscore and the character matched. *)
Fixpoint sub_from (prev : option N) (s : str) : str :=
  match s with
  | [] => []
  | c :: rest =>
      (if camel_to_underscore prev c (head rest) then [underscore; c] else [c])
      ++ sub_from (Some c) rest
  end.

Definition camel_to_underscore_sub (s : str) : str := sub_from None s.

Section ToUnderscoreName.

(** [str.lower]. *)
Variable lower : str -> str.

Definition to_underscore_name (s : str) : str :=
  lower (camel_to_underscore_sub s).

End ToUnderscoreName.

(** [str.lower] on a string whose cased characters are all ASCII. *)
Definition ascii_lower (s : str) : str :=
  map (fun c => if is_upper c then (c + 32)%N else c) s.

End Tests.

(** ** The task pool and the workers, after the specification *)

Module TaskPoolModel.

(** Modelled from the spec: the task of section 3
    ([onedrive_d/common/tasks.py] is not among the embedded files). *)
Inductive Kind : Type :=
| DirectorySync | FileUpload | FileDownload | FileDelete | FileMove
| ConflictResolve.

Inductive Status : Type := Pending | Running | Done | Failed.

Record Task : Type :=
  { kind : Kind; drive_ref : string; local_path : string; status : Status;
    attempt_count : nat }.

(** Modelled from the spec: the key of the pool's deduplication contract, the
    pair [(drive_ref, local_path)]. *)
Definition Key : Type := string * string.

Definition task_key (t : Task) : Key := (drive_ref t, local_path t).

Definition non_terminal (t : Task) : bool :=
  match status t with
  | Pending | Running => true
  | Done | Failed => false
  end.

(** Modelled from the spec: the task pool of section 4.1
    ([onedrive_d/store/task_pool.py] is not among the embedded files), the
    tasks in insertion order.  [has_pending_task] is the existence check for a
    non-terminal task with the key, and [add_task] inserts the task if no
    non-terminal task exists for its key. *)
Definition TaskPool : Type := list Task.

Definition has_key (k : Key) (t : Task) : bool :=
  String.eqb (fst (task_key t)) (fst k) && String.eqb (snd (task_key t)) (snd k).

Definition has_pending_task (p : TaskPool) (k : Key) : bool :=
  existsb (fun t => has_key k t && non_terminal t) p.

Definition add_task (p : TaskPool) (t : Task) : TaskPool :=
  if has_pending_task p (task_key t) then p else p ++ [t].

(** Modelled from the spec: a drive, by its identifier, and the root
    DirectorySync task the seeding logic builds for it. *)
Record Drive : Type := { drive_id : string }.

Definition root_task (d : Drive) : Task :=
  {| kind := DirectorySync; drive_ref := drive_id d; local_path := "";
     status := Pending; attempt_count := 0 |}.

#[export] Instance task_store : CliMain.TaskStore Drive Task Key TaskPool :=
  {| CliMain.root_task := root_task;
     CliMain.get_task_path := task_key;
     CliMain.has_pending_task := has_pending_task;
     CliMain.add_task := add_task |}.

(** Modelled from the spec: what a worker does with one task (sections 3 and
    4.3; [onedrive_d/common/task_worker.py] is not among the embedded files).
    The handler returns success, a retryable failure or a terminal failure;
    the worker reports it to the pool and goes back to claiming. *)
Inductive Outcome : Type := Success | RetryableFailure | TerminalFailure.

Definition set_status (s : Status) (attempts : nat) (t : Task) : Task :=
  {| kind := kind t; drive_ref := drive_ref t; local_path := local_path t;
     status := s; attempt_count := attempts |}.

(** [claim_next_task]: the first Pending task becomes Running. *)
Fixpoint claim_next_task (p : TaskPool) : option (Task * TaskPool) :=
  match p with
  | [] => None
  | t :: rest =>
      match status t with
      | Pending =>
          let t' := set_status Running (attempt_count t) t in
          Some (t', t' :: rest)
      | _ =>
          match claim_next_task rest with
          | Some (c, rest') => Some (c, t :: rest')
          | None => None
          end
      end
  end.

(** [complete], [fail_retry] and [fail_terminal]: the Running task with the
    key of [c] becomes Done, Pending with one more attempt, or Failed. *)
Definition report (o : Outcome) (c : Task) (p : TaskPool) : TaskPool :=
  map (fun t =>
         if has_key (task_key c) t && match status t with Running => true | _ => false end
         then match o with
              | Success => set_status Done (attempt_count t) t
              | RetryableFailure => set_status Pending (S (attempt_count t)) t
              | TerminalFailure => set_status Failed (attempt_count t) t
              end
         else t) p.

Definition worker_turn (p : TaskPool) (o : Outcome) : TaskPool :=
  match claim_next_task p with
  | Some (c, p') => report o c p'
  | None => p
  end.

(** The workers running the next tasks of the pool with these outcomes. *)
Definition run_workers (outcomes : list Outcome) (p : TaskPool) : TaskPool :=
  fold_left worker_turn outcomes p.

End TaskPoolModel.

(** ** Sample worlds *)

Module Samples.
Import CliMain TaskPoolModel.

Definition config_dir : string := "/home/user/.onedrive".

Definition drive_a : Drive := {| drive_id := "a" |}.
Definition drive_b : Drive := {| drive_id := "b" |}.

(** A world at the start of the process: the configuration directory exists,
    the log file [/var/log/onedrive.log] exists and can be opened for writing,
    [/root/onedrive.log] cannot; the drive store knows two drives, and the
    root task of the first is pending. *)
Definition world0 : @World Drive Task Key TaskPool :=
  {| files := {[ "/var/log/onedrive.log" := "old records" ]};
     open_error := fun p =>
       if String.eqb p "/root/onedrive.log"
       then Some "[Errno 13] Permission denied: '/root/onedrive.log'"
       else None;
     isdir := fun p => String.eqb p config_dir;
     num_consumers := 2;
     all_drives := [("a", drive_a); ("b", drive_b)];
     pool := [root_task drive_a];
     trace := [] |}.

(** The same world without the configuration directory. *)
Definition world1 : @World Drive Task Key TaskPool :=
  {| files := files world0; open_error := open_error world0;
     isdir := fun _ => false; num_consumers := num_consumers world0;
     all_drives := all_drives world0; pool := pool world0; trace := [] |}.

End Samples.

(** ** onedrive_d/api/drives.py: the other methods of [DriveObject] *)

Module DrivesMore.
Import Py Drives.

(** The [type] property. *)
Definition type (self : DriveObject) : result Json.value :=
  getitem (_data self) "driveType".

(** [get_drive] with the value of [self.id] as [drive_id], as [refresh] calls
    it: [None] (a JSON null) asks for the default drive, a [str] is appended
    to the URI, and anything else makes [uri + 's/' + drive_id] raise before a
    request is sent. *)
Definition get_drive_with (self : DriveRoot) (drive_id : Json.value)
    (list_children : bool) (script : list outcome)
  : option (result DriveObject) * list call :=
  match drive_id with
  | Json.Null => get_drive self None list_children script
  | Json.Str i => get_drive self (Some i) list_children script
  | _ => (Some (Raise TypeError), [])
  end.

(** [refresh]: [new_drive = self.root.get_drive(self.id)], then
    [self.__dict__.update(new_drive.__dict__)].  The three attributes of
    [self] become those of [new_drive]; when the call raises, or has not
    ended, [self] is as it was.  The result is the object as the call leaves
    it, how the call ended, and the calls made. *)
Definition refresh (self : DriveObject) (script : list outcome)
  : DriveObject * option (result unit) * list call :=
  match id self with
  | Raise e => (self, Some (Raise e), [])
  | Return i =>
      match get_drive_with (root self) i true script with
      | (Some (Return new_drive), calls) => (new_drive, Some (Return tt), calls)
      | (Some (Raise e), calls) => (self, Some (Raise e), calls)
      | (None, calls) => (self, None, calls)
      end
  end.

(** [get_root_dir]: one [session.get], answered by [o]; the deserialized
    body is returned whatever the status. *)
Definition get_root_dir (self : DriveObject) (list_children : bool) (o : outcome)
  : result Json.value * list call :=
  let uri := drive_uri self +:+ "/root" in
  let uri := if list_children then uri +:+ "?expand=children" else uri in
  (let? request := o in Return (json request), [SessionGet uri]).

(** [get_item]: as [get_root_dir], on the URI of the item. *)
Definition get_item (self : DriveObject) (item_id item_path : option string)
    (list_children : bool) (o : outcome) : result Json.value * list call :=
  let uri := get_item_uri self item_id item_path in
  let uri := if list_children then uri +:+ "?expand=children" else uri in
  (let? request := o in Return (json request), [SessionGet uri]).

(** *** Reading drive objects and calls *)

(** The drive URI of an object is the one of its id: what [__init__]
    establishes. *)
Definition consistent (obj : DriveObject) : Prop :=
  exists i, id obj = Return (Json.Str i)
            /\ drive_uri obj
               = (API_URI (client (account (root obj))) +:+ "/drives/") +:+ i.

(** No element of [ds] has the string [i] as its ['id']. *)
Definition id_absent (i : string) (ds : list Json.value) : Prop :=
  Forall (fun d => getitem d "id" <> Return (Json.Str i)) ds.

(** The ['id'] of [d] when it is a string, and the string ids of a listing,
    in order. *)
Definition str_id (d : Json.value) : option string :=
  match getitem d "id" with
  | Return (Json.Str i) => Some i
  | _ => None
  end.

Definition ids_of (ds : list Json.value) : list string := omap str_id ds.

(** A consistent drive object, and a response that is an error. *)
Definition drive0 : DriveObject := built root0 drive_a "a".

Definition not_found : Response :=
  {| status_code := 404;
     json := Json.Obj [("error", Json.Obj [("code", Json.Str "itemNotFound")])] |}.

Definition drive_b : Json.value :=
  Json.Obj [("id", Json.Str "b"); ("driveType", Json.Str "business")].

Definition drive_a' : Json.value :=
  Json.Obj [("id", Json.Str "a"); ("driveType", Json.Str "business")].

Definition nameless : Json.value := Json.Obj [("driveType", Json.Str "personal")].

End DrivesMore.

(** ** onedrive_d/cli/cli_main.py: more on the task pool it relies on *)

Module CliMore.
Import CliMain.

Section Pool.
Context {Drive Task Key Pool : Type} `{!TaskStore Drive Task Key Pool}.

(** A second property of the task pool: after the root task of a drive is
    added, a task is pending for its key. *)
Definition add_root_task_makes_pending : Prop :=
  forall (p : Pool) (d : Drive),
    has_pending_task (add_task p (root_task d)) (get_task_path (root_task d)) = true.

(** The questions a run of [add_initial_tasks] asks when the root task of
    every drive is pending: one for each drive, each answered yes. *)
Definition all_pending (drives : list (string * Drive)) : list (@event Task Key) :=
  map (fun kd => HasPendingTask (root_key kd) true) drives.

End Pool.

End CliMore.

(** ** onedrive_d/tests/__init__.py: reading the result of [to_underscore_name] *)

Module TestsMore.
Import Tests.

(** [s] without its underscores. *)
Definition strip_underscores (s : str) : str :=
  List.filter (fun c => negb (c =? underscore)%N) s.

Definition no_underscore (s : str) : bool :=
  forallb (fun c => negb (c =? underscore)%N) s.

(** Every underscore of [l] has a character before it and a character of
    [[A-Z]] right after it. *)
Definition underscores_before_capitals (l : str) : Prop :=
  forall pre post, l = pre ++ underscore :: post ->
    pre <> [] /\ exists c post', post = c :: post' /\ is_upper c = true.

(** Every character of [s] is an ASCII character; on such strings
    [str.lower] is [ascii_lower]. *)
Definition is_ascii (s : str) : bool := forallb (fun c => (c <? 128)%N) s.

End TestsMore.

(** * Properties *)

(** ** The drive API wrapper *)

Module DrivesFacts.
Import Py Drives.

Lemma bind_Return_inv {A B : Type} (r : result A) (k : A -> result B) (b : B) :
  bind r k = Return b -> exists a, r = Return a /\ k a = Return b.
Proof. destruct r as [a|e]; simpl; intros H; [eauto | discriminate]. Qed.

Lemma DriveObject_init_Return (self : DriveRoot) (d : Json.value) (obj : DriveObject) :
  DriveObject_init self d = Return obj <->
  exists i, getitem d "id" = Return (Json.Str i)
    /\ obj = {| root := self; _data := d;
                drive_uri := (API_URI (client (account self)) +:+ "/drives/") +:+ i |}.
Proof.
  unfold DriveObject_init. split.
  - intros H. apply bind_Return_inv in H as (v & Hv & H).
    apply bind_Return_inv in H as (uri & Huri & H).
    destruct v; simpl in Huri; try discriminate.
    injection Huri as <-. injection H as <-. eauto.
  - intros (i & Hi & ->). rewrite Hi. reflexivity.
Qed.

Lemma getitem_raises (v : Json.value) (k : string) (e : exn) :
  getitem v k = Raise e -> shape_error e.
Proof.
  unfold getitem. destruct v; try (intros [= <-]; exact I).
  destruct (Json.assoc k members); intros [= <-]; exact I.
Qed.

Lemma DriveObject_init_raises (self : DriveRoot) (d : Json.value) (e : exn) :
  DriveObject_init self d = Raise e -> shape_error e.
Proof.
  unfold DriveObject_init.
  destruct (getitem d "id") as [v|e'] eqn:Hv; simpl.
  - destruct v; simpl; intros [= <-]; exact I.
  - intros [= <-]. exact (getitem_raises _ _ _ Hv).
Qed.

Lemma collect_drives_raises (self : DriveRoot) (ds : list Json.value) (e : exn) :
  forall acc, collect_drives self ds acc = Raise e -> shape_error e.
Proof.
  induction ds as [|d ds IH]; intros acc; simpl; [discriminate|].
  destruct (DriveObject_init self d) as [obj|e'] eqn:Hobj; simpl.
  - apply DriveObject_init_Return in Hobj as (i & -> & _). simpl. apply IH.
  - intros [= <-]. exact (DriveObject_init_raises _ _ _ Hobj).
Qed.

Lemma get_all_drives_body_raises (self : DriveRoot) (resp : Response) (e : exn) :
  get_all_drives_body self resp = Raise e ->
  (status_code resp <> codes_ok /\ e = OneDriveError (json resp))
  \/ (status_code resp = codes_ok /\ shape_error e).
Proof.
  unfold get_all_drives_body.
  destruct (Z.eqb_spec (status_code resp) codes_ok) as [Hs|Hs]; simpl.
  - intros H. right. split; [exact Hs|].
    destruct (getitem (json resp) "value") as [v|e'] eqn:Hv; simpl in H.
    + destruct (iter v) as [ds|e''] eqn:Hds; simpl in H.
      * exact (collect_drives_raises _ _ _ _ H).
      * injection H as <-. destruct v; simpl in Hds; try discriminate;
          injection Hds as <-; exact I.
    + injection H as <-. exact (getitem_raises _ _ _ Hv).
  - intros [= <-]. by left.
Qed.

Lemma DriveObject_init_not_expired (self : DriveRoot) (d : Json.value) :
  DriveObject_init self d <> Raise OneDriveTokenExpiredError.
Proof. intros H. exact (DriveObject_init_raises _ _ _ H). Qed.

Lemma get_all_drives_body_not_expired (self : DriveRoot) (o : outcome) :
  o <> expired ->
  bind o (get_all_drives_body self) <> Raise OneDriveTokenExpiredError.
Proof.
  intros Ho. destruct o as [resp|e]; simpl; [|by intros [= ->]].
  intros H. apply get_all_drives_body_raises in H as [[_ [=]]|[_ []]].
Qed.

Lemma get_drive_body_not_expired (self : DriveRoot) (o : outcome) :
  o <> expired ->
  bind o (get_drive_body self) <> Raise OneDriveTokenExpiredError.
Proof.
  intros Ho. destruct o as [resp|e]; simpl; [|by intros [= ->]].
  unfold get_drive_body.
  destruct (negb (status_code resp =? codes_ok)%Z); [discriminate|].
  apply DriveObject_init_not_expired.
Qed.

(** The loop goes round once for every request that signals expiry... *)
Lemma retry_on_expiry_expired {A : Type} (uri : string) (body : Response -> result A)
    (k : nat) (script : list outcome) :
  forall tr, retry_on_expiry uri body (replicate k expired ++ script) tr
             = retry_on_expiry uri body script (tr ++ expired_rounds k uri).
Proof.
  induction k as [|k IH]; intros tr; simpl.
  - by rewrite app_nil_r.
  - rewrite IH. by rewrite <- !app_assoc.
Qed.

(** ... and ends at the first one that does not. *)
Lemma retry_on_expiry_settled {A : Type} (uri : string) (body : Response -> result A)
    (o : outcome) (script : list outcome) (tr : list call) :
  bind o body <> Raise OneDriveTokenExpiredError ->
  retry_on_expiry uri body (o :: script) tr
  = (Some (bind o body), tr ++ [SessionGet uri]).
Proof.
  intros H. simpl. destruct (bind o body) as [a|e]; [reflexivity|].
  destruct e; try reflexivity. by destruct H.
Qed.

Lemma retry_on_expiry_run {A : Type} (uri : string) (body : Response -> result A)
    (k : nat) (o : outcome) (script : list outcome) :
  bind o body <> Raise OneDriveTokenExpiredError ->
  retry_on_expiry uri body (replicate k expired ++ o :: script) []
  = (Some (bind o body), expired_rounds k uri ++ [SessionGet uri]).
Proof.
  intros H. rewrite retry_on_expiry_expired. by rewrite retry_on_expiry_settled.
Qed.

Lemma retry_on_expiry_pending {A : Type} (uri : string) (body : Response -> result A)
    (k : nat) :
  retry_on_expiry uri body (replicate k expired) [] = (None, expired_rounds k uri).
Proof.
  rewrite <- (app_nil_r (replicate k expired)).
  by rewrite retry_on_expiry_expired.
Qed.

Lemma renewals_expired_rounds (k : nat) (uri : string) (tail : list call) :
  renewals (expired_rounds k uri ++ tail) = k + renewals tail.
Proof.
  unfold renewals. induction k as [|k IH]; simpl; [reflexivity|].
  by rewrite IH.
Qed.

Lemma requests_expired_rounds (k : nat) (uri : string) (tail : list call) :
  requests (expired_rounds k uri ++ tail) = k + requests tail.
Proof.
  unfold requests. induction k as [|k IH]; simpl; [reflexivity|].
  by rewrite IH.
Qed.

(** C1, as stated, fails: when two requests in a row signal expired
    credentials, [get_all_drives] and [get_drive] renew twice and send a third
    request, which here succeeds. *)
Lemma expiry_twice_renews_twice :
  ~ renews_and_retries_once (get_all_drives root0)
  /\ ~ renews_and_retries_once (get_drive root0 None true)
  /\ snd (get_all_drives root0 [expired; expired; Return listing])
     = [SessionGet "https://api.onedrive.com/v1.0/drives"; RenewTokens;
        SessionGet "https://api.onedrive.com/v1.0/drives"; RenewTokens;
        SessionGet "https://api.onedrive.com/v1.0/drives"].
Proof.
  split; [|split].
  - intros H. destruct (H [expired; Return listing]) as [Hr _].
    vm_compute in Hr. discriminate.
  - intros H. destruct (H [expired; Return listing]) as [Hr _].
    vm_compute in Hr. discriminate.
  - reflexivity.
Qed.

(** C1, amended: [get_all_drives] and [get_drive] renew the credentials and
    send the same request again every time the request signals expired
    credentials, without a bound: after [k] such requests in a row there were
    [k] renewals and [k + 1] requests, all of the same URI.  The call ends
    with what the first request that does not signal expiry gives, which is
    never the expiry itself; while every request signals expiry the call does
    not end. *)
Theorem expiry_renewed_until_settled (self : DriveRoot) (drive_id : option string)
    (list_children : bool) (k : nat) (o : outcome) (script : list outcome) :
  o <> Raise OneDriveTokenExpiredError ->
  let all_uri := get_all_drives_uri self in
  let one_uri := get_drive_uri self drive_id list_children in
  let all_run := get_all_drives self (replicate k expired ++ o :: script) in
  let one_run := get_drive self drive_id list_children
                   (replicate k expired ++ o :: script) in
  all_run = (Some (bind o (get_all_drives_body self)),
             expired_rounds k all_uri ++ [SessionGet all_uri])
  /\ one_run = (Some (bind o (get_drive_body self)),
                expired_rounds k one_uri ++ [SessionGet one_uri])
  /\ renewals (snd all_run) = k /\ requests (snd all_run) = S k
  /\ renewals (snd one_run) = k /\ requests (snd one_run) = S k
  /\ fst all_run <> Some (Raise OneDriveTokenExpiredError)
  /\ fst one_run <> Some (Raise OneDriveTokenExpiredError)
  /\ get_all_drives self (replicate k expired) = (None, expired_rounds k all_uri)
  /\ get_drive self drive_id list_children (replicate k expired)
     = (None, expired_rounds k one_uri).
Proof.
  intros Ho all_uri one_uri all_run one_run.
  pose proof (get_all_drives_body_not_expired self o Ho) as Hall.
  pose proof (get_drive_body_not_expired self o Ho) as Hone.
  assert (Eall : all_run = (Some (bind o (get_all_drives_body self)),
                            expired_rounds k all_uri ++ [SessionGet all_uri]))
    by (apply retry_on_expiry_run; exact Hall).
  assert (Eone : one_run = (Some (bind o (get_drive_body self)),
                            expired_rounds k one_uri ++ [SessionGet one_uri]))
    by (apply retry_on_expiry_run; exact Hone).
  rewrite Eall, Eone. simpl fst. simpl snd.
  rewrite !renewals_expired_rounds, !requests_expired_rounds.
  unfold get_all_drives, get_drive. rewrite !retry_on_expiry_pending.
  repeat split; try (cbn; lia).
  - intros [= E]. exact (Hall E).
  - intros [= E]. exact (Hone E).
Qed.

Lemma expiry_renewed_until_settled_witness :
  Return listing <> Raise OneDriveTokenExpiredError
  /\ get_all_drives root0 (replicate 3 expired ++ [Return listing])
     = (Some (bind (Return listing) (get_all_drives_body root0)),
        expired_rounds 3 (get_all_drives_uri root0)
        ++ [SessionGet (get_all_drives_uri root0)]).
Proof.
  split; [discriminate|].
  exact (proj1 (expiry_renewed_until_settled root0 None true 3 (Return listing) []
                  ltac:(discriminate))).
Defined.

Lemma has_str_id_true (d : Json.value) :
  has_str_id d = true -> exists i, getitem d "id" = Return (Json.Str i).
Proof.
  unfold has_str_id. destruct (getitem d "id") as [v|e]; [|discriminate].
  destruct v; try discriminate. eauto.
Qed.

Lemma collect_drives_keyed (self : DriveRoot) (ds : list Json.value) :
  forall acc drives,
    collect_drives self ds acc = Return drives ->
    forall i obj, drives !! i = Some obj ->
      acc !! i = Some obj
      \/ exists d, d ∈ ds /\ getitem d "id" = Return (Json.Str i)
                   /\ obj = built self d i.
Proof.
  induction ds as [|d ds IH]; intros acc drives; simpl.
  - intros [= <-] i obj H. by left.
  - destruct (DriveObject_init self d) as [o|e] eqn:Hobj; simpl; [|discriminate].
    apply DriveObject_init_Return in Hobj as (j & Hj & ->). rewrite Hj. simpl.
    intros H i obj Hi.
    destruct (IH _ _ H i obj Hi) as [Hacc|(d' & Hd' & Hid & ->)].
    + destruct (decide (j = i)) as [->|Hne].
      * rewrite lookup_insert_eq in Hacc. injection Hacc as <-.
        right. exists d. rewrite elem_of_cons. auto.
      * rewrite lookup_insert_ne in Hacc by done. by left.
    + right. exists d'. rewrite elem_of_cons. auto.
Qed.

Lemma collect_drives_total (self : DriveRoot) (ds : list Json.value) :
  forallb has_str_id ds = true ->
  forall acc, exists drives,
    collect_drives self ds acc = Return drives
    /\ (forall i, is_Some (acc !! i) -> is_Some (drives !! i))
    /\ (forall d i, d ∈ ds -> getitem d "id" = Return (Json.Str i) ->
                    is_Some (drives !! i)).
Proof.
  induction ds as [|d ds IH]; simpl; intros Hall acc.
  - exists acc. split; [reflexivity|]. split; [auto|].
    intros d i Hd. by apply elem_of_nil in Hd.
  - apply andb_prop in Hall as [Hd Hds].
    apply has_str_id_true in Hd as (j & Hj).
    assert (Hobj : DriveObject_init self d = Return (built self d j))
      by (apply DriveObject_init_Return; eauto).
    rewrite Hobj. simpl. rewrite Hj. simpl.
    destruct (IH Hds (<[j := built self d j]> acc)) as (drives & Hrun & Hacc & Hin).
    exists drives. split; [exact Hrun|]. split.
    + intros i Hi. apply Hacc. destruct (decide (j = i)) as [->|Hne].
      * rewrite lookup_insert_eq. eauto.
      * by rewrite lookup_insert_ne.
    + intros d' i Hd' Hi. apply elem_of_cons in Hd' as [->|Hd'].
      * rewrite Hj in Hi. injection Hi as <-. apply Hacc.
        rewrite lookup_insert_eq. eauto.
      * by apply (Hin d').
Qed.

(** C7: [get_all_drives] raises [OneDriveError], with the payload of the
    response, exactly when the status of the response is not
    [requests.codes.ok], and [create_dir] exactly when it is not
    [requests.codes.created].  A dictionary that [get_all_drives] returns is
    keyed by the ids of its drive objects, and it returns one, holding every id
    of the listing, when the response is OK and lists dictionaries with string
    ids under ['value']; [create_dir] returns the item built from the payload
    when the response is Created. *)
Theorem remote_error_iff_unexpected_status
    (self : DriveRoot) (drive : DriveObject) (k : nat) (resp : Response)
    (script : list outcome) (name : string) (parent_id parent_path : option string)
    (conflict_behavior : string) :
  let listed :=
    fst (get_all_drives self (replicate k expired ++ Return resp :: script)) in
  let made :=
    fst (create_dir drive name parent_id parent_path conflict_behavior
           (Return resp)) in
  ((exists payload, listed = Some (Raise (OneDriveError payload)))
   <-> status_code resp <> codes_ok)
  /\ (status_code resp <> codes_ok ->
      listed = Some (Raise (OneDriveError (json resp))))
  /\ (forall drives, listed = Some (Return drives) ->
      status_code resp = codes_ok
      /\ forall i obj, drives !! i = Some obj ->
           id obj = Return (Json.Str i) /\ root obj = self)
  /\ (forall ds, status_code resp = codes_ok ->
      getitem (json resp) "value" = Return (Json.Arr ds) ->
      forallb has_str_id ds = true ->
      exists drives, listed = Some (Return drives)
        /\ forall i, is_Some (drives !! i)
                     <-> exists d, d ∈ ds /\ getitem d "id" = Return (Json.Str i))
  /\ ((exists payload, made = Raise (OneDriveError payload))
      <-> status_code resp <> codes_created)
  /\ (status_code resp <> codes_created ->
      made = Raise (OneDriveError (json resp)))
  /\ (status_code resp = codes_created ->
      made = Return {| item_data := json resp |}).
Proof.
  intros listed made.
  assert (Hlisted : listed = Some (get_all_drives_body self resp)).
  { unfold listed, get_all_drives.
    rewrite retry_on_expiry_run; [reflexivity|].
    by apply (get_all_drives_body_not_expired self (Return resp)). }
  assert (Hmade : made = if negb (status_code resp =? codes_created)%Z
                         then Raise (OneDriveError (json resp))
                         else Return {| item_data := json resp |})
    by reflexivity.
  rewrite Hlisted, Hmade. clear Hlisted Hmade listed made.
  assert (Hbad : status_code resp <> codes_ok ->
                 get_all_drives_body self resp = Raise (OneDriveError (json resp))).
  { intros Hs. unfold get_all_drives_body.
    by destruct (Z.eqb_spec (status_code resp) codes_ok). }
  repeat match goal with |- _ /\ _ => split end.
  - split.
    + intros (payload & [= H]).
      by apply get_all_drives_body_raises in H as [[Hs _]|[_ []]].
    + intros Hs. exists (json resp). by rewrite Hbad.
  - intros Hs. by rewrite Hbad.
  - intros drives [= H].
    assert (Hs : status_code resp = codes_ok).
    { destruct (Z.eq_dec (status_code resp) codes_ok) as [Hs|Hs]; [exact Hs|].
      rewrite (Hbad Hs) in H. discriminate. }
    split; [exact Hs|]. intros i obj Hi.
    unfold get_all_drives_body in H. rewrite Hs in H. simpl in H.
    apply bind_Return_inv in H as (v & _ & H).
    apply bind_Return_inv in H as (ds & _ & H).
    destruct (collect_drives_keyed _ _ _ _ H i obj Hi) as [Hacc|(d & _ & Hid & ->)].
    + by rewrite lookup_empty in Hacc.
    + split; [exact Hid|reflexivity].
  - intros ds Hs Hv Hds. unfold get_all_drives_body. rewrite Hs, Hv. simpl.
    destruct (collect_drives_total self ds Hds ∅) as (drives & Hrun & _ & Hin).
    exists drives. split; [by rewrite Hrun|]. intros i. split.
    + intros [obj Hi].
      destruct (collect_drives_keyed _ _ _ _ Hrun i obj Hi) as [Hacc|(d & Hd & Hid & _)].
      * by rewrite lookup_empty in Hacc.
      * eauto.
    + intros (d & Hd & Hid). by apply (Hin d).
  - destruct (Z.eqb_spec (status_code resp) codes_created) as [Hs|Hs]; simpl.
    + split; [by intros (payload & [=])|done].
    + split; [done|eauto].
  - intros Hs. by destruct (Z.eqb_spec (status_code resp) codes_created).
  - intros Hs. by destruct (Z.eqb_spec (status_code resp) codes_created).
Qed.

Lemma remote_error_iff_unexpected_status_witness :
  status_code created <> codes_ok
  /\ fst (get_all_drives root0 (replicate 1 expired ++ [Return created]))
     = Some (Raise (OneDriveError (json created))).
Proof.
  assert (H : status_code created <> codes_ok) by (vm_compute; discriminate).
  split; [exact H|].
  exact (proj1 (proj2 (remote_error_iff_unexpected_status root0
                         (built root0 drive_a "a") 1 created [] "docs" None None
                         "fail")) H).
Defined.

(** C9: [get_item_uri] gives the item-by-id URI whenever an item id is
    given, whatever the item path; the item-by-path URI when only a path is
    given; and the URI of the drive's root when neither is. *)
Theorem get_item_uri_cases (self : DriveObject) (item_id item_path : string)
    (any_path : option string) :
  get_item_uri self (Some item_id) any_path
  = (drive_uri self +:+ "/items/") +:+ item_id
  /\ get_item_uri self None (Some item_path)
     = (drive_uri self +:+ "/root:/") +:+ item_path
  /\ get_item_uri self None None = drive_uri self +:+ "/root".
Proof. by destruct any_path. Qed.

End DrivesFacts.

(** ** The daemon's entry point *)

Module CliFacts.
Import CliMain.

Section DaemonFacts.
Context {Drive Task Key Pool : Type} `{!TaskStore Drive Task Key Pool}.
Variable CONFIG_DIR : string.

Local Abbreviation World := (@World Drive Task Key Pool).
Local Abbreviation event := (@event Task Key).
Local Abbreviation tick := (@tick Pool).
Local Abbreviation worker_starts := (@worker_starts Task Key).
Local Abbreviation startup := (@startup Task Key CONFIG_DIR).

Lemma guarded_nil : guarded [].
Proof. intros pre t post H. by destruct pre. Qed.

Lemma guarded_app (a b : list event) : guarded a -> guarded b -> guarded (a ++ b).
Proof.
  intros Ha Hb pre t post H.
  apply app_eq_inv in H as [(k & Ha' & Hk)|(k & Hpre & Hk)].
  - destruct k as [|e k].
    + simpl in Hk. destruct (Hb [] t post (eq_sym Hk)) as (pre' & Hpre).
      by destruct pre'.
    + injection Hk as <- ->. exact (Ha pre t k Ha').
  - destruct (Hb k t post Hk) as (pre' & ->).
    exists (a ++ pre'). by rewrite Hpre, app_assoc.
Qed.

Lemma guarded_answer (k : Key) (b : bool) : guarded [HasPendingTask k b].
Proof.
  intros pre t post H. destruct pre as [|e pre]; [discriminate|].
  injection H as _ H. by destruct pre.
Qed.

Lemma guarded_add (t : Task) :
  guarded [HasPendingTask (get_task_path t) false; AddTask t].
Proof.
  intros pre t' post H. destruct pre as [|e pre]; [discriminate|].
  injection H as <- H. destruct pre as [|e' pre].
  - injection H as <- _. by exists [].
  - injection H as _ H. by destruct pre.
Qed.

(** What one turn of the loop over the drives does. *)
Lemma add_initial_task_pending (w : World) (kd : string * Drive) :
  has_pending_task (pool w) (root_key kd) = true ->
  add_initial_task w kd = emit (HasPendingTask (root_key kd) true) w.
Proof. unfold add_initial_task, root_key. simpl. by intros ->. Qed.

Lemma add_initial_task_absent (w : World) (kd : string * Drive) :
  has_pending_task (pool w) (root_key kd) = false ->
  add_initial_task w kd
  = emit (AddTask (root_task (snd kd)))
      (set_pool (add_task (pool w) (root_task (snd kd)))
         (emit (HasPendingTask (root_key kd) false) w)).
Proof. unfold add_initial_task, root_key. simpl. by intros ->. Qed.

(** The events a run over [drives] adds, and what they say. *)
Lemma add_initial_tasks_for_events (drives : list (string * Drive)) :
  forall w : World, exists added,
    trace (add_initial_tasks_for drives w) = trace w ++ added
    /\ guarded added
    /\ (forall t, AddTask t ∈ added ->
          exists kd, kd ∈ drives /\ t = root_task (snd kd))
    /\ omap asked_key added = map root_key drives
    /\ Forall is_pool_call added
    /\ (add_task_keeps_pending ->
        forall k, has_pending_task (pool w) k = true ->
          (forall t, AddTask t ∈ added -> get_task_path t <> k)
          /\ has_pending_task (pool (add_initial_tasks_for drives w)) k = true)
    /\ files (add_initial_tasks_for drives w) = files w
    /\ all_drives (add_initial_tasks_for drives w) = all_drives w.
Proof.
  induction drives as [|kd drives IH]; intros w.
  - exists []. simpl. rewrite app_nil_r.
    repeat split; auto using guarded_nil.
    + intros t Ht. by apply elem_of_nil in Ht.
    + intros t Ht. by apply elem_of_nil in Ht.
  - unfold add_initial_tasks_for. simpl.
    fold (add_initial_tasks_for drives (add_initial_task w kd)).
    destruct (IH (add_initial_task w kd))
      as (added & Htr & Hg & Hfrom & Hkeys & Hkind & Hkeep & Hfiles & Hdrives).
    destruct (has_pending_task (pool w) (root_key kd)) eqn:Hp.
    + rewrite (add_initial_task_pending w kd Hp) in *.
      exists (HasPendingTask (root_key kd) true :: added).
      split; [simpl in Htr; rewrite Htr; by rewrite <- app_assoc|].
      split; [exact (guarded_app [_] added (guarded_answer _ _) Hg)|].
      split.
      { intros t Ht. apply elem_of_cons in Ht as [[=]|Ht].
        destruct (Hfrom t Ht) as (kd' & Hkd' & ->).
        exists kd'. rewrite elem_of_cons. auto. }
      split; [cbn; f_equal; exact Hkeys|].
      split; [by constructor|].
      split; [|by split].
      intros Hlaw k Hk. destruct (Hkeep Hlaw k Hk) as [Hno Hstill].
      split; [|exact Hstill].
      intros t Ht. apply elem_of_cons in Ht as [[=]|Ht]. by apply Hno.
    + rewrite (add_initial_task_absent w kd Hp) in *.
      exists (HasPendingTask (root_key kd) false :: AddTask (root_task (snd kd)) :: added).
      split; [simpl in Htr; rewrite Htr; rewrite <- !app_assoc; reflexivity|].
      split; [exact (guarded_app [_; _] added (guarded_add _) Hg)|].
      split.
      { intros t Ht. apply elem_of_cons in Ht as [[=]|Ht].
        apply elem_of_cons in Ht as [[= ->]|Ht].
        - exists kd. rewrite elem_of_cons. auto.
        - destruct (Hfrom t Ht) as (kd' & Hkd' & ->).
          exists kd'. rewrite elem_of_cons. auto. }
      split; [cbn; f_equal; exact Hkeys|].
      split; [by repeat constructor|].
      split; [|by split].
      intros Hlaw k Hk.
      destruct (Hkeep Hlaw k (Hlaw _ _ _ Hk)) as [Hno Hstill].
      split; [|exact Hstill].
      intros t Ht. apply elem_of_cons in Ht as [[=]|Ht].
      apply elem_of_cons in Ht as [[= ->]|Ht]; [|by apply Hno].
      intros Heq. unfold root_key in Hp. rewrite Heq, Hk in Hp. discriminate.
Qed.

(** C2: the seeding routine asks the task pool, for every drive of the drive
    store in turn, whether a task is pending for the key of the drive's root
    task, and every task it adds comes right after the answer that none is, for
    the key of that task.  Hence, for a task pool in which adding a task
    leaves a pending key pending, a run made while the root task of a drive
    is pending adds no task with that key, and the key is still pending
    after it. *)
Theorem add_initial_tasks_guarded (w : World) :
  exists added,
    trace (add_initial_tasks w) = trace w ++ added
    /\ guarded added
    /\ (forall t, AddTask t ∈ added ->
          exists kd, kd ∈ all_drives w /\ t = root_task (snd kd))
    /\ omap asked_key added = map root_key (all_drives w)
    /\ (add_task_keeps_pending ->
        forall kd, kd ∈ all_drives w ->
          has_pending_task (pool w) (root_key kd) = true ->
          (forall t, AddTask t ∈ added -> get_task_path t <> root_key kd)
          /\ has_pending_task (pool (add_initial_tasks w)) (root_key kd) = true).
Proof.
  unfold add_initial_tasks.
  destruct (add_initial_tasks_for_events (all_drives w) w)
    as (added & Htr & Hg & Hfrom & Hkeys & _ & Hkeep & _).
  exists added. do 4 (split; [assumption|]).
  intros Hlaw kd _ Hk. exact (Hkeep Hlaw (root_key kd) Hk).
Qed.

(** *** What the functions leave in the trace *)

Lemma emit_emits (e : event) (w : World) : emit e w = emits [e] w.
Proof. reflexivity. Qed.

Lemma emits_emits (a b : list event) (w : World) :
  emits b (emits a w) = emits (a ++ b) w.
Proof. unfold emits. simpl. by rewrite app_assoc. Qed.

Lemma emits_nil (w : World) : emits [] w = w.
Proof. unfold emits. rewrite app_nil_r. by destruct w. Qed.

Lemma load_user_config_emits (w : World) :
  load_user_config CONFIG_DIR w
  = emits [GetCurrentUserConfig; TakeEffect; NetworkMonitorStart;
           NewPersonalClient;
           OpenAccountStorage (CONFIG_DIR +:+ "/accounts.db");
           OpenDriveStorage (CONFIG_DIR +:+ "/drives.db"); GetAllAccounts] w.
Proof.
  unfold load_user_config. rewrite !emit_emits, !emits_emits. reflexivity.
Qed.

Lemma start_workers_from_emits (n : nat) :
  forall (i : nat) (w : World),
    start_workers_from i n w = emits (worker_starts i n) w.
Proof.
  induction n as [|n IH]; intros i w; simpl.
  - by rewrite emits_nil.
  - rewrite IH, emit_emits, emits_emits. reflexivity.
Qed.

Lemma steps_worker_starts (i n : nat) :
  steps (worker_starts i n) = replicate n Workers.
Proof.
  revert i. induction n as [|n IH]; intros i; [reflexivity|].
  unfold steps, worker_starts in *. cbn. by rewrite IH.
Qed.

Lemma steps_app (a b : list event) : steps (a ++ b) = steps a ++ steps b.
Proof. apply omap_app. Qed.

Lemma steps_pool_calls (calls : list event) :
  Forall is_pool_call calls -> steps calls = replicate (length calls) Seeding.
Proof.
  induction 1 as [|e calls He _ IH]; [reflexivity|].
  unfold steps in *. destruct e; try (by destruct He); cbn; by rewrite IH.
Qed.

Lemma seeding_round_steps (drives : list (string * Drive)) (block : list event) :
  seeding_round drives block -> exists m, steps block = replicate m Seeding.
Proof.
  intros (calls & -> & Hcalls & _).
  exists (1 + (length calls + 1)).
  change (Log INFO "Refilling initial tasks..." :: calls ++ [Sleep 300])
    with ([Log INFO "Refilling initial tasks..."] ++ calls ++ [Sleep 300]).
  rewrite !steps_app, (steps_pool_calls calls Hcalls).
  by rewrite !replicate_add.
Qed.

Lemma seeding_rounds_steps (drives : list (string * Drive))
    (rounds : list (list event)) :
  Forall (seeding_round drives) rounds ->
  exists m, steps (concat rounds) = replicate m Seeding.
Proof.
  induction 1 as [|block rounds Hb _ (m & IH)]; [by exists 0|].
  destruct (seeding_round_steps _ _ Hb) as (m' & Hm').
  exists (m' + m). simpl. by rewrite steps_app, Hm', IH, replicate_add.
Qed.

(** *** [fix_log_args] *)

Lemma fix_log_args_emits (args : Args) (w : World) :
  exists logging,
    snd (fix_log_args args w)
    = emits logging (set_files (files (snd (fix_log_args args w))) w)
    /\ steps logging = [].
Proof.
  unfold fix_log_args, open_for_writing.
  destruct (log_file args) as [path|]; [destruct (open_error w path) as [msg|]|];
    simpl; eexists; (split; [rewrite !emit_emits, ?emits_emits; reflexivity|]);
    reflexivity.
Qed.

(** C6: when [--log-file] names a path that cannot be opened for writing,
    [fix_log_args] prints the warning to standard error and initializes the
    logger with no path; when the path can be opened, or no [--log-file] is
    given, it initializes the logger with the path given (or none).  The
    minimum level is in every case the level of [--log-level] (DEBUG when the
    option is not given). *)
Theorem fix_log_args_logging (level : option LogLevel) (file : option string)
    (w : World) :
  let run := fix_log_args (parse_args level file) w in
  let min_level := logging_level (default DEBUG level) in
  (forall path msg, file = Some path -> open_error w path = Some msg ->
     trace (snd run)
     = trace w ++ [OpenForWriting path (Some msg);
                   PrintStderr (cannot_open_message path msg);
                   InitLogger min_level None]
     /\ log_file (fst run) = None)
  /\ (forall path, file = Some path -> open_error w path = None ->
      trace (snd run)
      = trace w ++ [OpenForWriting path None; InitLogger min_level (Some path)]
      /\ log_file (fst run) = Some path)
  /\ (file = None ->
      trace (snd run) = trace w ++ [InitLogger min_level None]
      /\ log_file (fst run) = None)
  /\ log_level (fst run) = default DEBUG level.
Proof.
  intros run min_level. unfold run, min_level, fix_log_args, parse_args.
  repeat match goal with |- _ /\ _ => split end.
  - intros path msg -> Hopen. simpl. rewrite Hopen. simpl.
    by rewrite <- !app_assoc.
  - intros path -> Hopen. simpl. rewrite Hopen. simpl.
    by rewrite <- !app_assoc.
  - by intros ->.
  - destruct file as [path|]; [|reflexivity]. simpl.
    by destruct (open_error w path).
Qed.

(** C8: when [--log-file] names an existing file that can be opened for
    writing, [fix_log_args] leaves it empty: the file is opened in write mode
    before the logger is initialized, and so before any log record.  The
    other files, and the arguments, are left as they were. *)
Theorem fix_log_args_truncates (args : Args) (w : World) (path content : string) :
  log_file args = Some path ->
  files w !! path = Some content ->
  open_error w path = None ->
  let run := fix_log_args args w in
  files (snd run) !! path = Some ""
  /\ (forall other, other <> path -> files (snd run) !! other = files w !! other)
  /\ fst run = args
  /\ trace (snd run)
     = trace w ++ [OpenForWriting path None;
                   InitLogger (logging_level (log_level args)) (Some path)].
Proof.
  intros Hfile _ Hopen run. unfold run, fix_log_args. rewrite Hfile, Hopen.
  simpl. repeat split.
  - apply lookup_insert_eq.
  - intros other Hne. by apply lookup_insert_ne.
  - by rewrite Hfile, <- !app_assoc.
Qed.

(** *** The seeding loop *)

Lemma refill_tasks_Quiet (f : Pool -> Pool) (script : list tick) (w : World) :
  refill_tasks (Quiet f :: script) w
  = refill_tasks script
      (set_pool
         (f (pool (add_initial_tasks (emit (Log INFO "Refilling initial tasks...") w))))
         (emit (Sleep 300)
            (add_initial_tasks (emit (Log INFO "Refilling initial tasks...") w)))).
Proof. reflexivity. Qed.

Lemma refill_tasks_quiet (fs : list (Pool -> Pool)) :
  forall w : World, exists rounds,
    snd (refill_tasks (map Quiet fs) w) = None
    /\ trace (fst (refill_tasks (map Quiet fs) w)) = trace w ++ concat rounds
    /\ length rounds = length fs
    /\ Forall (seeding_round (all_drives w)) rounds
    /\ all_drives (fst (refill_tasks (map Quiet fs) w)) = all_drives w
    /\ files (fst (refill_tasks (map Quiet fs) w)) = files w.
Proof.
  induction fs as [|f fs IH]; intros w.
  - exists []. simpl. by rewrite app_nil_r.
  - change (map Quiet (f :: fs)) with (Quiet f :: map Quiet fs).
    rewrite refill_tasks_Quiet.
    set (w0 := emit (Log INFO "Refilling initial tasks...") w).
    destruct (add_initial_tasks_for_events (all_drives w0) w0)
      as (calls & Htr & Hg & _ & Hkeys & Hkind & _ & Hfiles & Hdrives).
    fold (add_initial_tasks w0) in Htr, Hfiles, Hdrives.
    set (w2 := set_pool _ _).
    assert (Htr2 : trace w2 = trace w ++ Log INFO "Refilling initial tasks..."
                                        :: calls ++ [Sleep 300]).
    { unfold w2. simpl. rewrite Htr. simpl. by rewrite <- !app_assoc. }
    assert (Hd2 : all_drives w2 = all_drives w) by exact Hdrives.
    assert (Hf2 : files w2 = files w) by exact Hfiles.
    destruct (IH w2) as (rounds & Hend & Htr3 & Hlen & Hrounds & Hdrives3 & Hfiles3).
    exists ((Log INFO "Refilling initial tasks..." :: calls ++ [Sleep 300]) :: rounds).
    split; [exact Hend|]. split.
    { rewrite Htr3, Htr2, <- app_assoc. reflexivity. }
    split; [simpl; by rewrite Hlen|].
    split.
    { constructor; [|by rewrite <- Hd2].
      exists calls. split; [reflexivity|]. split; [exact Hkind|].
      split; [exact Hkeys|exact Hg]. }
    split; [by rewrite Hdrives3|by rewrite Hfiles3].
Qed.

Lemma refill_tasks_app (fs : list (Pool -> Pool)) (rest : list tick) :
  forall w : World,
    refill_tasks (map Quiet fs ++ rest) w
    = refill_tasks rest (fst (refill_tasks (map Quiet fs) w)).
Proof.
  induction fs as [|f fs IH]; intros w; simpl; [reflexivity|]. by rewrite IH.
Qed.

(** The turn in which the interrupt arrives: what was done of the turn, then
    the handler. *)
Lemma refill_tasks_interrupted (t : tick) (rest : list tick) (w : World) :
  is_interrupt t = true ->
  exists part,
    snd (refill_tasks (t :: rest) w) = Some 0%Z
    /\ trace (fst (refill_tasks (t :: rest) w))
       = trace w ++ part ++ [Log INFO "Exiting..."; Exit 0]
    /\ (exists m, steps part = replicate m Seeding).
Proof.
  destruct t as [f| |k|]; [discriminate| | |]; intros _; simpl.
  - exists []. split; [reflexivity|]. split; [by rewrite <- app_assoc|by exists 0].
  - set (w0 := emit (Log INFO "Refilling initial tasks...") w).
    destruct (add_initial_tasks_for_events (take k (all_drives w)) w0)
      as (calls & Htr & _ & _ & _ & Hkind & _).
    exists (Log INFO "Refilling initial tasks..." :: calls).
    split; [reflexivity|]. split.
    + rewrite Htr. simpl. by rewrite <- !app_assoc.
    + exists (1 + length calls).
      change (Log INFO "Refilling initial tasks..." :: calls)
        with ([Log INFO "Refilling initial tasks..."] ++ calls).
      by rewrite steps_app, (steps_pool_calls calls Hkind).
  - set (w0 := emit (Log INFO "Refilling initial tasks...") w).
    destruct (add_initial_tasks_for_events (all_drives w0) w0)
      as (calls & Htr & _ & _ & _ & Hkind & _).
    fold (add_initial_tasks w0) in Htr.
    exists (Log INFO "Refilling initial tasks..." :: calls ++ [Sleep sleep_seconds]).
    split; [reflexivity|]. split.
    + rewrite Htr. simpl. by rewrite <- !app_assoc.
    + exists (1 + (length calls + 1)).
      change (Log INFO "Refilling initial tasks..." :: calls ++ [Sleep sleep_seconds])
        with ([Log INFO "Refilling initial tasks..."] ++ calls ++ [Sleep sleep_seconds]).
      rewrite !steps_app, (steps_pool_calls calls Hkind).
      by rewrite !replicate_add.
Qed.

(** A script is quiet turns up to its first interrupt, if it has one. *)
Lemma script_split (script : list tick) :
  (exists fs, script = map Quiet fs)
  \/ (exists fs t rest, script = map Quiet fs ++ t :: rest /\ is_interrupt t = true).
Proof.
  induction script as [|t script IH]; [left; by exists []|].
  destruct t as [f| |k|].
  - destruct IH as [(fs & ->)|(fs & t & rest & -> & Ht)].
    + left. by exists (f :: fs).
    + right. by exists (f :: fs), t, rest.
  - right. by exists [], InterruptInLog, script.
  - right. by exists [], (InterruptInAdd k), script.
  - right. by exists [], InterruptInSleep, script.
Qed.

(** What a run of the loop adds to the trace, by steps: seeding, and the
    exit when the run ends. *)
Lemma refill_tasks_steps (script : list tick) :
  forall w : World, exists added m,
    trace (fst (refill_tasks script w)) = trace w ++ added
    /\ steps added
       = replicate m Seeding
         ++ match snd (refill_tasks script w) with
            | Some _ => [Leaving]
            | None => []
            end
    /\ (script <> [] -> 0 < m).
Proof.
  induction script as [|t script IH]; intros w.
  - exists [], 0. simpl. by rewrite app_nil_r.
  - destruct (is_interrupt t) eqn:Ht.
    + destruct (refill_tasks_interrupted t script w Ht)
        as (part & Hend & Htr & m & Hm).
      exists (part ++ [Log INFO "Exiting..."; Exit 0]), (m + 1).
      split; [exact Htr|]. rewrite Hend, steps_app, Hm, replicate_add.
      split; [by rewrite <- app_assoc|lia].
    + destruct t as [f| | |]; try discriminate.
      rewrite refill_tasks_Quiet.
      set (w0 := emit (Log INFO "Refilling initial tasks...") w).
      destruct (add_initial_tasks_for_events (all_drives w0) w0)
        as (calls & Htr & _ & _ & _ & Hkind & _).
      fold (add_initial_tasks w0) in Htr.
      set (w2 := set_pool _ _).
      assert (Htr2 : trace w2 = trace w ++ [Log INFO "Refilling initial tasks..."]
                                          ++ calls ++ [Sleep 300]).
      { unfold w2. simpl. rewrite Htr. simpl. by rewrite <- !app_assoc. }
      destruct (IH w2) as (added & m & Htr3 & Hsteps & _).
      exists (([Log INFO "Refilling initial tasks..."] ++ calls ++ [Sleep 300]) ++ added),
        ((1 + (length calls + 1)) + m).
      split; [by rewrite Htr3, Htr2, <- !app_assoc|].
      split; [|lia].
      rewrite !steps_app, Hsteps, (steps_pool_calls calls Hkind).
      rewrite !replicate_add. by rewrite <- !app_assoc.
Qed.

Lemma refill_tasks_exits (script : list tick) (w : World) :
  (exists t, t ∈ script /\ is_interrupt t = true) ->
  snd (refill_tasks script w) = Some 0%Z
  /\ exists tr, trace (fst (refill_tasks script w))
                = tr ++ [Log INFO "Exiting..."; Exit 0].
Proof.
  intros (t & Ht & Hint).
  destruct (script_split script) as [(fs & ->)|(fs & t' & rest & -> & Ht')].
  - apply list_elem_of_fmap in Ht as (f & -> & _). discriminate.
  - rewrite refill_tasks_app.
    destruct (refill_tasks_interrupted t' rest (fst (refill_tasks (map Quiet fs) w)) Ht')
      as (part & Hend & Htr & _).
    split; [exact Hend|]. eexists. rewrite Htr, app_assoc. reflexivity.
Qed.

Lemma refill_tasks_goes_on (script : list tick) (w : World) :
  (forall t, t ∈ script -> is_interrupt t = false) ->
  snd (refill_tasks script w) = None.
Proof.
  intros Hq.
  destruct (script_split script) as [(fs & ->)|(fs & t' & rest & -> & Ht')].
  - by destruct (refill_tasks_quiet fs w) as (rounds & Hend & _).
  - rewrite (Hq t') in Ht'; [discriminate|].
    rewrite elem_of_app, elem_of_cons. auto.
Qed.

(** *** [main] *)

Lemma main_started (level : option LogLevel) (file : option string)
    (script : list tick) (w : World) :
  isdir w CONFIG_DIR = true ->
  exists logging fs,
    steps logging = []
    /\ main CONFIG_DIR level file script w
       = refill_tasks script
           (emits (logging ++ startup ++ worker_starts 0 (num_consumers w))
              (set_files fs w)).
Proof.
  intros Hdir. unfold main.
  destruct (fix_log_args_emits (parse_args level file) w) as (logging & Hw1 & Hl).
  destruct (fix_log_args (parse_args level file) w) as [args w1]. simpl in Hw1.
  remember (files w1) as fs eqn:Hfs. clear Hfs. subst w1.
  exists logging, fs. split; [exact Hl|].
  unfold check_config_dir.
  change (isdir (emit (GetLogger "Main") (emits logging (set_files fs w))) CONFIG_DIR)
    with (isdir w CONFIG_DIR).
  rewrite Hdir. unfold start_task_workers, load_task_storage, load_item_storage.
  rewrite load_user_config_emits, start_workers_from_emits.
  rewrite !emit_emits, !emits_emits.
  f_equal.
Qed.

Lemma main_stopped (level : option LogLevel) (file : option string)
    (script : list tick) (w : World) :
  isdir w CONFIG_DIR = false ->
  exists logging fs,
    steps logging = []
    /\ main CONFIG_DIR level file script w
       = (emits (logging ++ [GetLogger "Main";
                             Log CRITICAL (no_config_dir_message CONFIG_DIR);
                             Exit 1])
            (set_files fs w), Some 1%Z).
Proof.
  intros Hdir. unfold main.
  destruct (fix_log_args_emits (parse_args level file) w) as (logging & Hw1 & Hl).
  destruct (fix_log_args (parse_args level file) w) as [args w1]. simpl in Hw1.
  remember (files w1) as fs eqn:Hfs. clear Hfs. subst w1.
  exists logging, fs. split; [exact Hl|].
  unfold check_config_dir.
  change (isdir (emit (GetLogger "Main") (emits logging (set_files fs w))) CONFIG_DIR)
    with (isdir w CONFIG_DIR).
  rewrite Hdir. by rewrite !emit_emits, !emits_emits.
Qed.

Lemma sorted_until (n : nat) (l1 l2 : list nat) :
  Forall (fun x => x <= n) l1 -> Forall (fun x => n <= x) l2 ->
  StronglySorted le l1 -> StronglySorted le l2 -> StronglySorted le (l1 ++ l2).
Proof.
  rewrite !Forall_forall. intros H1 H2 S1 S2.
  apply StronglySorted_app_2; [|exact S1|exact S2].
  intros x1 x2 Hx1 Hx2. specialize (H1 x1 Hx1). specialize (H2 x2 Hx2). lia.
Qed.

Lemma sorted_replicate (k n : nat) : StronglySorted le (replicate k n).
Proof.
  induction k as [|k IH]; simpl; constructor; [exact IH|].
  by apply Forall_replicate.
Qed.

(** C3, amended: [main] loads the configuration, starts the network monitor,
    opens the persisted stores (accounts, drives, items, tasks), starts the
    [num_consumers] workers and enters the seeding loop, in this order: the
    network monitor is started before any store is opened.  When an interrupt
    arrives in the loop, the process logs that it exits and exits with status
    0; as long as none arrives it keeps running. *)
Theorem startup_order (level : option LogLevel) (file : option string)
    (script : list tick) (w : World) :
  isdir w CONFIG_DIR = true ->
  trace w = [] ->
  let run := main CONFIG_DIR level file script w in
  (exists m,
     steps (trace (fst run))
     = [Configuration; Configuration; Monitor; Stores; Stores; Stores; Stores]
       ++ replicate (num_consumers w) Workers
       ++ replicate m Seeding
       ++ match snd run with Some _ => [Leaving] | None => [] end
     /\ (script <> [] -> 0 < m))
  /\ in_order main_rank (trace (fst run))
  /\ ((exists t, t ∈ script /\ is_interrupt t = true) ->
      snd run = Some 0%Z
      /\ exists tr, trace (fst run) = tr ++ [Log INFO "Exiting..."; Exit 0])
  /\ ((forall t, t ∈ script -> is_interrupt t = false) -> snd run = None).
Proof.
  intros Hdir Hempty run.
  destruct (main_started level file script w Hdir) as (logging & fs & Hl & Hrun).
  fold run in Hrun. rewrite Hrun. clear Hrun run.
  set (w1 := emits _ _).
  destruct (refill_tasks_steps script w1) as (added & m & Htr & Hsteps & Hm).
  assert (Hst : steps (trace (fst (refill_tasks script w1)))
                = [Configuration; Configuration; Monitor; Stores; Stores; Stores; Stores]
                  ++ replicate (num_consumers w) Workers
                  ++ replicate m Seeding
                  ++ match snd (refill_tasks script w1) with
                     | Some _ => [Leaving]
                     | None => []
                     end).
  { rewrite Htr. unfold w1.
    change (trace (emits ?evs (set_files fs w))) with (trace w ++ evs).
    rewrite Hempty, app_nil_l.
    rewrite !steps_app, Hl, Hsteps, steps_worker_starts. reflexivity. }
  split; [by exists m|]. split.
  - unfold in_order. rewrite Hst, !fmap_app, !fmap_replicate.
    apply (sorted_until 2); [by repeat constructor| |by repeat constructor|].
    { rewrite !Forall_app. repeat split; try (apply Forall_replicate; simpl; lia).
      destruct (snd _); by repeat constructor. }
    apply (sorted_until 3); [by apply Forall_replicate| |apply sorted_replicate|].
    { rewrite !Forall_app. repeat split; try (apply Forall_replicate; simpl; lia).
      destruct (snd _); by repeat constructor. }
    apply (sorted_until 4); [by apply Forall_replicate| |apply sorted_replicate|].
    { destruct (snd _); by repeat constructor. }
    destruct (snd _); by repeat constructor.
  - split; [apply refill_tasks_exits|apply refill_tasks_goes_on].
Qed.

(** C4: the seeding loop runs turn after turn: each turn logs, asks the pool
    about the root task of every drive of the drive store, adding the ones
    that are not pending, and sleeps 300 seconds, and without an interrupt no
    number of turns ends the loop.  An interrupt in a turn ends the loop after
    the part of the turn that was done: the process logs that it exits and
    exits with status 0. *)
Theorem seeding_loop (fs : list (Pool -> Pool)) (w : World) :
  (exists rounds,
     snd (refill_tasks (map Quiet fs) w) = None
     /\ trace (fst (refill_tasks (map Quiet fs) w)) = trace w ++ concat rounds
     /\ length rounds = length fs
     /\ Forall (seeding_round (all_drives w)) rounds)
  /\ (forall t rest, is_interrupt t = true ->
      exists rounds part,
        snd (refill_tasks (map Quiet fs ++ t :: rest) w) = Some 0%Z
        /\ trace (fst (refill_tasks (map Quiet fs ++ t :: rest) w))
           = trace w ++ concat rounds ++ part ++ [Log INFO "Exiting..."; Exit 0]
        /\ length rounds = length fs
        /\ Forall (seeding_round (all_drives w)) rounds
        /\ exists m, steps part = replicate m Seeding)
  /\ sleep_seconds = 300%Z.
Proof.
  destruct (refill_tasks_quiet fs w) as (rounds & Hend & Htr & Hlen & Hrounds & _).
  split; [by exists rounds|]. split; [|reflexivity].
  intros t rest Ht. rewrite refill_tasks_app.
  destruct (refill_tasks_interrupted t rest (fst (refill_tasks (map Quiet fs) w)) Ht)
    as (part & Hend' & Htr' & Hpart).
  exists rounds, part. split; [exact Hend'|].
  split; [by rewrite Htr', Htr, <- !app_assoc|]. by repeat split.
Qed.

(** C5: when the configuration directory is missing, [check_config_dir] logs
    the critical message that names the directory and asks to run
    [onedrived-pref] first, and exits with code 1, and so does [main], before
    any step of the start-up.  When the directory exists, [check_config_dir]
    returns and [main] goes on to load the configuration; from then on, a
    process that is not interrupted keeps running whatever the workers do to
    the task pool, and no run ends with code 1. *)
Theorem config_dir_required (level : option LogLevel) (file : option string)
    (fs : list (Pool -> Pool)) (script : list tick) (w : World) :
  (isdir w CONFIG_DIR = false ->
   check_config_dir CONFIG_DIR w
   = (emits [Log CRITICAL
               ("Configuration directory " +:+ dquote +:+ CONFIG_DIR +:+ dquote
                +:+ " does not exist. Please run `onedrived-pref` first.");
             Exit 1] w, Some 1%Z)
   /\ snd (main CONFIG_DIR level file script w) = Some 1%Z
   /\ (exists tr, trace (fst (main CONFIG_DIR level file script w))
                  = tr ++ [Log CRITICAL (no_config_dir_message CONFIG_DIR); Exit 1]
                  /\ steps tr = steps (trace w)))
  /\ (isdir w CONFIG_DIR = true ->
      check_config_dir CONFIG_DIR w = (w, None)
      /\ GetCurrentUserConfig ∈ trace (fst (main CONFIG_DIR level file script w))
      /\ snd (main CONFIG_DIR level file script w) <> Some 1%Z
      /\ snd (main CONFIG_DIR level file (map Quiet fs) w) = None).
Proof.
  split; intros Hdir.
  - split; [unfold check_config_dir; rewrite Hdir;
            by rewrite !emit_emits, emits_emits|].
    destruct (main_stopped level file script w Hdir) as (logging & fs' & Hl & ->).
    split; [reflexivity|].
    exists (trace w ++ logging ++ [GetLogger "Main"]). simpl. split.
    + by rewrite <- !app_assoc.
    + rewrite !steps_app, Hl. simpl. by rewrite app_nil_r.
  - split; [unfold check_config_dir; by rewrite Hdir|].
    destruct (main_started level file script w Hdir) as (logging & fs' & Hl & ->).
    set (w1 := emits _ _).
    destruct (refill_tasks_steps script w1) as (added & m & Htr & _).
    split; [|split].
    + rewrite Htr. unfold w1. simpl. unfold startup.
      rewrite !elem_of_app, !elem_of_cons. auto 10.
    + destruct (script_split script) as [(gs & ->)|(gs & t & rest & -> & Ht)].
      * destruct (refill_tasks_quiet gs w1) as (rounds & -> & _). discriminate.
      * rewrite refill_tasks_app.
        destruct (refill_tasks_interrupted t rest (fst (refill_tasks (map Quiet gs) w1)) Ht)
          as (part & -> & _). discriminate.
    + destruct (main_started level file (map Quiet fs) w Hdir)
        as (logging' & fs'' & _ & ->).
      by destruct (refill_tasks_quiet fs (emits (logging' ++ startup
                     ++ worker_starts 0 (num_consumers w)) (set_files fs'' w)))
        as (rounds & Hend & _).
Qed.

End DaemonFacts.

End CliFacts.

(** ** The task pool of the specification *)

Module TaskPoolModelFacts.
Import TaskPoolModel.

(** The pool of the specification keeps a pending key pending when a task is
    added. *)
Lemma add_task_keeps_pending (p : TaskPool) (t : Task) (k : Key) :
  has_pending_task p k = true -> has_pending_task (add_task p t) k = true.
Proof.
  intros H. unfold add_task.
  destruct (has_pending_task p (task_key t)); [exact H|].
  unfold has_pending_task in *. by rewrite existsb_app, H.
Qed.

End TaskPoolModelFacts.

(** ** The daemon on the sample worlds *)

Module CliSamples.
Import CliMain TaskPoolModel Samples.

Lemma add_initial_tasks_guarded_witness :
  add_task_keeps_pending (Pool := TaskPool)
  /\ has_pending_task (pool world0) (root_key ("a", drive_a)) = true
  /\ exists added,
       trace (add_initial_tasks world0) = trace world0 ++ added
       /\ guarded added
       /\ (forall t, AddTask t ∈ added -> get_task_path t <> root_key ("a", drive_a))
       /\ pool (add_initial_tasks world0) = [root_task drive_a; root_task drive_b].
Proof.
  split; [exact TaskPoolModelFacts.add_task_keeps_pending|].
  split; [reflexivity|].
  destruct (CliFacts.add_initial_tasks_guarded world0)
    as (added & Htr & Hg & _ & _ & Hkeep).
  exists added. split; [exact Htr|]. split; [exact Hg|].
  split; [|reflexivity].
  apply (Hkeep TaskPoolModelFacts.add_task_keeps_pending ("a", drive_a));
    [|reflexivity].
  apply elem_of_cons. by left.
Defined.

Lemma fix_log_args_logging_witness :
  open_error world0 "/root/onedrive.log"
  = Some "[Errno 13] Permission denied: '/root/onedrive.log'"
  /\ trace (snd (fix_log_args (parse_args (Some WARNING) (Some "/root/onedrive.log"))
                   world0))
     = [OpenForWriting "/root/onedrive.log"
          (Some "[Errno 13] Permission denied: '/root/onedrive.log'");
        PrintStderr
          (cannot_open_message "/root/onedrive.log"
             "[Errno 13] Permission denied: '/root/onedrive.log'");
        InitLogger 30 None].
Proof.
  split; [reflexivity|].
  exact (proj1 (proj1 (CliFacts.fix_log_args_logging (Some WARNING)
                         (Some "/root/onedrive.log") world0)
                  "/root/onedrive.log"
                  "[Errno 13] Permission denied: '/root/onedrive.log'"
                  eq_refl eq_refl)).
Defined.

Lemma fix_log_args_truncates_witness :
  files world0 !! "/var/log/onedrive.log" = Some "old records"
  /\ files (snd (fix_log_args {| log_level := INFO;
                                 log_file := Some "/var/log/onedrive.log" |}
                   world0))
     !! "/var/log/onedrive.log" = Some "".
Proof.
  split; [reflexivity|].
  exact (proj1 (CliFacts.fix_log_args_truncates
                  {| log_level := INFO; log_file := Some "/var/log/onedrive.log" |}
                  world0 "/var/log/onedrive.log" "old records"
                  eq_refl eq_refl eq_refl)).
Defined.

(** C3, as stated, fails: on the sample world, [main] starts the network
    monitor before it opens the first store, so the steps of its trace are
    not in the order configuration, stores, network monitor, workers,
    seeding loop. *)
Lemma stores_opened_after_monitor :
  ~ in_order stated_rank
      (trace (fst (main config_dir None None [InterruptInSleep] world0))).
Proof.
  unfold in_order. intros H. vm_compute in H.
  apply StronglySorted_inv in H as [H _].
  apply StronglySorted_inv in H as [H _].
  apply StronglySorted_inv in H as [_ H].
  apply Forall_inv in H. lia.
Qed.

Lemma startup_order_witness :
  isdir world0 config_dir = true
  /\ trace world0 = []
  /\ in_order main_rank
       (trace (fst (main config_dir None None [Quiet id; InterruptInSleep] world0)))
  /\ snd (main config_dir None None [Quiet id; InterruptInSleep] world0) = Some 0%Z.
Proof.
  split; [reflexivity|]. split; [reflexivity|].
  pose proof (CliFacts.startup_order config_dir None None
                [Quiet id; InterruptInSleep] world0 eq_refl eq_refl) as H.
  cbv zeta in H. destruct H as (_ & Hord & Hexit & _).
  split; [exact Hord|].
  apply Hexit. exists InterruptInSleep. split; [|reflexivity].
  rewrite !elem_of_cons. auto.
Defined.

Lemma seeding_loop_witness :
  is_interrupt (Pool := TaskPool) (InterruptInAdd 1) = true
  /\ snd (refill_tasks (map Quiet [run_workers [Success]; run_workers []]
                        ++ [InterruptInAdd 1]) world0)
     = Some 0%Z.
Proof.
  split; [reflexivity|].
  destruct (proj1 (proj2 (CliFacts.seeding_loop
                            [run_workers [Success]; run_workers []] world0))
              (InterruptInAdd 1) [] eq_refl)
    as (rounds & part & Hend & _).
  exact Hend.
Defined.

(** On the sample worlds: without the configuration directory the process
    exits with code 1; with it, the process keeps running while the workers
    meet terminal and retryable failures. *)
Lemma config_dir_required_witness :
  isdir world1 config_dir = false
  /\ snd (main config_dir None None [] world1) = Some 1%Z
  /\ isdir world0 config_dir = true
  /\ snd (main config_dir None None
            (map Quiet [run_workers [TerminalFailure];
                        run_workers [RetryableFailure; TerminalFailure]])
            world0) = None.
Proof.
  split; [reflexivity|].
  split.
  { exact (proj1 (proj2 (proj1 (CliFacts.config_dir_required config_dir None None
                                  [] [] world1) eq_refl))). }
  split; [reflexivity|].
  exact (proj2 (proj2 (proj2 (proj2 (CliFacts.config_dir_required config_dir None None
           [run_workers [TerminalFailure];
            run_workers [RetryableFailure; TerminalFailure]] [] world0)
           eq_refl)))).
Defined.

End CliSamples.

(** ** The test helpers *)

Module TestsFacts.
Import Tests.

(** Where no character is in [[A-Z]] the pattern matches nowhere. *)
Lemma sub_from_no_upper (s : str) :
  forall prev, forallb (fun c => negb (is_upper c)) s = true -> sub_from prev s = s.
Proof.
  induction s as [|c s IH]; intros prev H; [reflexivity|].
  simpl in H. apply andb_prop in H as [Hc Hs].
  simpl. unfold camel_to_underscore.
  destruct (is_upper c); [discriminate|].
  rewrite !andb_false_r. simpl. by rewrite IH.
Qed.

(** On a string without a character of [[A-Z]], [to_underscore_name] is
    [lower]. *)
Lemma to_underscore_name_of_lowered (lower : str -> str) (t : str) :
  forallb (fun c => negb (is_upper c)) t = true ->
  to_underscore_name lower t = lower t.
Proof.
  intros H. unfold to_underscore_name, camel_to_underscore_sub.
  by rewrite (sub_from_no_upper t None H).
Qed.

Example to_underscore_name_camel :
  to_underscore_name ascii_lower [99; 97; 109; 101; 108; 67; 97; 115; 101]%N
  = [99; 97; 109; 101; 108; 95; 99; 97; 115; 101]%N.
Proof. reflexivity. Qed.

Example to_underscore_name_acronym :
  to_underscore_name ascii_lower
    [72; 84; 84; 80; 82; 101; 115; 112; 111; 110; 115; 101]%N
  = [104; 116; 116; 112; 95; 114; 101; 115; 112; 111; 110; 115; 101]%N.
Proof. reflexivity. Qed.

(** C10: [to_underscore_name] is idempotent: applied to its own result, in
    which [lower] has left no character of [[A-Z]] and which [lower] leaves
    as it is, it finds no match and gives the same string. *)
Theorem to_underscore_name_idempotent (lower : str -> str) (s : str) :
  forallb (fun c => negb (is_upper c)) (to_underscore_name lower s) = true ->
  lower (to_underscore_name lower s) = to_underscore_name lower s ->
  to_underscore_name lower (to_underscore_name lower s)
  = to_underscore_name lower s.
Proof.
  intros Hno Hid. by rewrite (to_underscore_name_of_lowered lower _ Hno).
Qed.

Lemma to_underscore_name_idempotent_witness :
  to_underscore_name ascii_lower
    (to_underscore_name ascii_lower
       [72; 84; 84; 80; 82; 101; 115; 112; 111; 110; 115; 101]%N)
  = [104; 116; 116; 112; 95; 114; 101; 115; 112; 111; 110; 115; 101]%N.
Proof.
  exact (to_underscore_name_idempotent ascii_lower
           [72; 84; 84; 80; 82; 101; 115; 112; 111; 110; 115; 101]%N
           eq_refl eq_refl).
Defined.

(** [ascii_lower] leaves no character of [[A-Z]] and is idempotent. *)
Lemma ascii_lower_no_upper (s : str) :
  forallb (fun c => negb (is_upper c)) (ascii_lower s) = true.
Proof.
  induction s as [|c s IH]; [reflexivity|]. simpl. rewrite IH, andb_true_r.
  destruct (is_upper c) eqn:Hc; [|by rewrite Hc].
  unfold is_upper in *. apply andb_prop in Hc as [H1 H2].
  apply N.leb_le in H1, H2. apply negb_true_iff, andb_false_iff. right.
  apply N.leb_gt. lia.
Qed.

Lemma ascii_lower_idempotent (s : str) : ascii_lower (ascii_lower s) = ascii_lower s.
Proof.
  pose proof (ascii_lower_no_upper s) as H. revert H.
  generalize (ascii_lower s). intros t. induction t as [|c t IH]; [reflexivity|].
  simpl. intros H. apply andb_prop in H as [Hc Ht].
  apply negb_true_iff in Hc. rewrite Hc. by rewrite (IH Ht).
Qed.

(** With [str.lower] on ASCII text, idempotence holds for every string. *)
Lemma to_underscore_name_ascii_idempotent (s : str) :
  to_underscore_name ascii_lower (to_underscore_name ascii_lower s)
  = to_underscore_name ascii_lower s.
Proof.
  unfold to_underscore_name at 2 3.
  rewrite (to_underscore_name_of_lowered ascii_lower _
             (ascii_lower_no_upper (camel_to_underscore_sub s))).
  apply ascii_lower_idempotent.
Qed.

End TestsFacts.

(** ** The drive API wrapper: further properties *)

Module DrivesMoreFacts.
Import Py Drives DrivesMore.

Lemma append_assoc (a b c : string) : (a +:+ b) +:+ c = a +:+ (b +:+ c).
Proof.
  induction a as [|x a IH]; [reflexivity|].
  change (String x ((a +:+ b) +:+ c) = String x (a +:+ (b +:+ c))).
  by rewrite IH.
Qed.

Lemma outcome_expired_dec (o : outcome) : {o = expired} + {o <> expired}.
Proof.
  destruct o as [resp|e]; [right; discriminate|].
  destruct e; (by left) || (right; discriminate).
Qed.

(** The loop on any script: it goes through the leading requests that signal
    expiry and ends at the first outcome that does not. *)
Lemma retry_on_expiry_shape {A : Type} (uri : string) (body : Response -> result A)
    (script : list outcome) :
  (forall o, o <> expired -> bind o body <> Raise OneDriveTokenExpiredError) ->
  forall tr, exists k,
    take k script = replicate k expired
    /\ match script !! k with
       | Some o =>
           o <> expired
           /\ retry_on_expiry uri body script tr
              = (Some (bind o body), tr ++ expired_rounds k uri ++ [SessionGet uri])
       | None =>
           k = length script
           /\ retry_on_expiry uri body script tr = (None, tr ++ expired_rounds k uri)
       end.
Proof.
  intros Hbody. induction script as [|o script IH]; intros tr.
  - exists 0. simpl. by rewrite app_nil_r.
  - destruct (outcome_expired_dec o) as [->|Ho].
    + destruct (IH ((tr ++ [SessionGet uri]) ++ [RenewTokens])) as (k & Htake & Hk).
      exists (S k). split; [simpl; by rewrite Htake|].
      simpl. destruct (script !! k) as [o'|].
      * destruct Hk as [Ho' ->]. split; [exact Ho'|]. by rewrite <- !app_assoc.
      * destruct Hk as [-> ->]. split; [reflexivity|]. by rewrite <- !app_assoc.
    + exists 0. split; [reflexivity|]. simpl lookup. split; [exact Ho|].
      by rewrite (DrivesFacts.retry_on_expiry_settled uri body o script tr (Hbody o Ho)).
Qed.

Lemma retry_on_expiry_ended {A : Type} (uri : string) (body : Response -> result A)
    (script : list outcome) (r : result A) (calls : list call) :
  (forall o, o <> expired -> bind o body <> Raise OneDriveTokenExpiredError) ->
  retry_on_expiry uri body script [] = (Some r, calls) ->
  exists k o, script !! k = Some o /\ o <> expired /\ r = bind o body
    /\ calls = expired_rounds k uri ++ [SessionGet uri].
Proof.
  intros Hbody Hrun.
  destruct (retry_on_expiry_shape uri body script Hbody []) as (k & _ & Hk).
  destruct (script !! k) as [o|] eqn:Hok.
  - destruct Hk as [Ho Hk]. rewrite Hk in Hrun. injection Hrun as <- <-.
    by exists k, o.
  - destruct Hk as [_ Hk]. rewrite Hk in Hrun. discriminate.
Qed.

Lemma built_consistent (self : DriveRoot) (d : Json.value) (i : string) :
  getitem d "id" = Return (Json.Str i) -> consistent (built self d i).
Proof. intros H. exists i. by split. Qed.

Lemma get_drive_body_Return (self : DriveRoot) (o : outcome) (obj : DriveObject) :
  bind o (get_drive_body self) = Return obj ->
  exists resp i, o = Return resp /\ status_code resp = codes_ok
    /\ getitem (json resp) "id" = Return (Json.Str i)
    /\ obj = built self (json resp) i.
Proof.
  destruct o as [resp|e]; simpl; [|discriminate]. unfold get_drive_body.
  destruct (Z.eqb_spec (status_code resp) codes_ok) as [Hs|Hs]; simpl; [|discriminate].
  intros H. apply DrivesFacts.DriveObject_init_Return in H as (i & Hi & ->).
  by exists resp, i.
Qed.

(** X1: the calls of [get_drive] and [get_all_drives] on any sequence of
    answers: [k] rounds of request and renewal for the [k] leading answers that
    signal expiry, then one more request if there is a further answer, all to
    the one URI; the call has not ended exactly when every answer signals
    expiry, and the answers after the first that does not are not
    consumed. *)
Theorem retry_calls_on_any_script (self : DriveRoot) (drive_id : option string)
    (list_children : bool) (script : list outcome) :
  exists k,
    take k script = replicate k expired
    /\ (forall o, script !! k = Some o ->
        o <> expired
        /\ get_drive self drive_id list_children script
           = (Some (bind o (get_drive_body self)),
              expired_rounds k (get_drive_uri self drive_id list_children)
              ++ [SessionGet (get_drive_uri self drive_id list_children)])
        /\ get_all_drives self script
           = (Some (bind o (get_all_drives_body self)),
              expired_rounds k (get_all_drives_uri self)
              ++ [SessionGet (get_all_drives_uri self)]))
    /\ (script !! k = None ->
        k = length script
        /\ get_drive self drive_id list_children script
           = (None, expired_rounds k (get_drive_uri self drive_id list_children))
        /\ get_all_drives self script
           = (None, expired_rounds k (get_all_drives_uri self))).
Proof.
  destruct (retry_on_expiry_shape (get_drive_uri self drive_id list_children)
              (get_drive_body self) script
              (DrivesFacts.get_drive_body_not_expired self) [])
    as (k & Htake & Hone).
  destruct (retry_on_expiry_shape (get_all_drives_uri self)
              (get_all_drives_body self) script
              (DrivesFacts.get_all_drives_body_not_expired self) [])
    as (k' & Htake' & Hall).
  assert (k' = k) as ->.
  { destruct (script !! k) as [o|] eqn:Hk, (script !! k') as [o'|] eqn:Hk'.
    - destruct Hone as [Ho _], Hall as [Ho' _].
      destruct (Nat.lt_trichotomy k k') as [Hlt|[->|Hlt]]; [|reflexivity|].
      + exfalso. apply Ho.
        assert (H : take k' script !! k = Some o)
          by (rewrite lookup_take_lt; [exact Hk|exact Hlt]).
        rewrite Htake' in H. by apply lookup_replicate in H as [-> _].
      + exfalso. apply Ho'.
        assert (H : take k script !! k' = Some o')
          by (rewrite lookup_take_lt; [exact Hk'|exact Hlt]).
        rewrite Htake in H. by apply lookup_replicate in H as [-> _].
    - destruct Hone as [Ho _], Hall as [-> _].
      apply lookup_lt_Some in Hk as Hlt. exfalso. apply Ho.
      rewrite firstn_all in Htake'.
      assert (H : script !! k = Some o) by exact Hk.
      rewrite Htake' in H. by apply lookup_replicate in H as [-> _].
    - destruct Hone as [-> _], Hall as [Ho' _].
      apply lookup_lt_Some in Hk' as Hlt. exfalso. apply Ho'.
      rewrite firstn_all in Htake.
      assert (H : script !! k' = Some o') by exact Hk'.
      rewrite Htake in H. by apply lookup_replicate in H as [-> _].
    - destruct Hone as [-> _], Hall as [-> _]. reflexivity. }
  exists k. split; [exact Htake|]. split.
  - intros o Ho. rewrite Ho in Hone, Hall.
    destruct Hone as [Hne Hone], Hall as [_ Hall]. by repeat split.
  - intros Hnone. rewrite Hnone in Hone, Hall.
    destruct Hone as [Hlen Hone], Hall as [_ Hall]. by repeat split.
Qed.

Lemma retry_calls_on_any_script_witness :
  [expired; Return not_found; expired] !! 1 = Some (Return not_found)
  /\ get_drive root0 (Some "a") false [expired; Return not_found; expired]
     = (Some (Raise (OneDriveError (json not_found))),
        [SessionGet "https://api.onedrive.com/v1.0/drives/a"; RenewTokens;
         SessionGet "https://api.onedrive.com/v1.0/drives/a"]).
Proof.
  split; [reflexivity|].
  destruct (retry_calls_on_any_script root0 (Some "a") false
              [expired; Return not_found; expired]) as (k & Htake & Hsome & _).
  destruct k as [|[|k]]; [| |discriminate Htake].
  - by destruct (Hsome expired eq_refl) as [Hne _].
  - exact (proj1 (proj2 (Hsome (Return not_found) eq_refl))).
Defined.

(** X2: [get_drive] raises [OneDriveError], with the payload of the response,
    exactly when the status is not [requests.codes.ok]; on an OK response it
    returns the drive object of the payload when the payload has a string
    ['id'], and what it returns is always that object; an OK payload without
    ['id'] raises [KeyError].  The id of the drive returned is not compared
    with the id asked for. *)
Theorem get_drive_result (self : DriveRoot) (drive_id : option string)
    (list_children : bool) (k : nat) (resp : Response) (script : list outcome) :
  let got :=
    fst (get_drive self drive_id list_children
           (replicate k expired ++ Return resp :: script)) in
  ((exists payload, got = Some (Raise (OneDriveError payload)))
   <-> status_code resp <> codes_ok)
  /\ (status_code resp <> codes_ok ->
      got = Some (Raise (OneDriveError (json resp))))
  /\ (forall i, status_code resp = codes_ok ->
      getitem (json resp) "id" = Return (Json.Str i) ->
      got = Some (Return (built self (json resp) i)))
  /\ (forall obj, got = Some (Return obj) ->
      status_code resp = codes_ok
      /\ exists i, getitem (json resp) "id" = Return (Json.Str i)
                   /\ obj = built self (json resp) i)
  /\ (status_code resp = codes_ok ->
      getitem (json resp) "id" = Raise (KeyError "id") ->
      got = Some (Raise (KeyError "id"))).
Proof.
  intros got.
  assert (Hgot : got = Some (get_drive_body self resp)).
  { unfold got, get_drive. rewrite DrivesFacts.retry_on_expiry_run; [reflexivity|].
    by apply (DrivesFacts.get_drive_body_not_expired self (Return resp)). }
  rewrite Hgot. clear Hgot got. unfold get_drive_body.
  destruct (Z.eqb_spec (status_code resp) codes_ok) as [Hs|Hs]; simpl.
  - repeat match goal with |- _ /\ _ => split end.
    + split; [|done]. intros (payload & [= H]).
      by apply DrivesFacts.DriveObject_init_raises in H.
    + done.
    + intros i _ Hi. f_equal. apply DrivesFacts.DriveObject_init_Return. eauto.
    + intros obj [= H]. split; [exact Hs|].
      by apply DrivesFacts.DriveObject_init_Return in H.
    + intros _ Hi. unfold DriveObject_init. by rewrite Hi.
  - repeat match goal with |- _ /\ _ => split end; try done.
    split; [done|]. eauto.
Qed.

Lemma get_drive_result_witness :
  status_code not_found <> codes_ok
  /\ fst (get_drive root0 (Some "a") true (replicate 2 expired ++ [Return not_found]))
     = Some (Raise (OneDriveError (json not_found))).
Proof.
  assert (H : status_code not_found <> codes_ok) by (vm_compute; discriminate).
  split; [exact H|].
  exact (proj1 (proj2 (get_drive_result root0 (Some "a") true 2 not_found [])) H).
Defined.

(** X3: a drive object that [get_drive] returns, and every drive object in a
    dictionary that [get_all_drives] returns, whatever the answers were, has
    the root it was asked from, a dictionary with a string ['id'] as its
    data, and the drive URI of that id; so its [type] is a value or a
    [KeyError], never a [TypeError]. *)
Theorem returned_drives_consistent (self : DriveRoot) (drive_id : option string)
    (list_children : bool) (script : list outcome) :
  (forall obj calls,
     get_drive self drive_id list_children script = (Some (Return obj), calls) ->
     consistent obj /\ root obj = self /\ type obj <> Raise TypeError)
  /\ (forall drives calls i obj,
        get_all_drives self script = (Some (Return drives), calls) ->
        drives !! i = Some obj ->
        consistent obj /\ root obj = self /\ type obj <> Raise TypeError
        /\ drive_uri obj = (API_URI (client (account self)) +:+ "/drives/") +:+ i).
Proof.
  assert (Htype : forall d i, getitem d "id" = Return (Json.Str i) ->
                              getitem d "driveType" <> Raise TypeError).
  { intros d i Hd. unfold getitem in *. destruct d; try discriminate.
    by destruct (Json.assoc "driveType" members). }
  split.
  - intros obj calls Hrun.
    apply retry_on_expiry_ended in Hrun as (k & o & _ & _ & Hr & _);
      [|apply DrivesFacts.get_drive_body_not_expired].
    symmetry in Hr. apply get_drive_body_Return in Hr as (resp & i & _ & _ & Hi & ->).
    split; [by apply built_consistent|]. split; [reflexivity|].
    exact (Htype _ _ Hi).
  - intros drives calls i obj Hrun Hobj.
    apply retry_on_expiry_ended in Hrun as (k & o & _ & _ & Hr & _);
      [|apply DrivesFacts.get_all_drives_body_not_expired].
    symmetry in Hr. apply DrivesFacts.bind_Return_inv in Hr as (resp & _ & Hr).
    unfold get_all_drives_body in Hr.
    destruct (negb (status_code resp =? codes_ok)%Z); [discriminate|].
    apply DrivesFacts.bind_Return_inv in Hr as (v & _ & Hr).
    apply DrivesFacts.bind_Return_inv in Hr as (ds & _ & Hr).
    destruct (DrivesFacts.collect_drives_keyed _ _ _ _ Hr i obj Hobj)
      as [Hacc|(d & _ & Hid & ->)]; [by rewrite lookup_empty in Hacc|].
    split; [by apply built_consistent|]. split; [reflexivity|].
    split; [exact (Htype _ _ Hid)|reflexivity].
Qed.

Lemma returned_drives_consistent_witness :
  get_drive root0 None true [expired; Return {| status_code := 200; json := drive_a |}]
  = (Some (Return drive0),
     [SessionGet "https://api.onedrive.com/v1.0/drive?expand=children"; RenewTokens;
      SessionGet "https://api.onedrive.com/v1.0/drive?expand=children"])
  /\ consistent drive0.
Proof.
  split; [reflexivity|].
  exact (proj1 (proj1 (returned_drives_consistent root0 None true
                         [expired; Return {| status_code := 200; json := drive_a |}])
                  drive0 _ eq_refl)).
Defined.

Lemma elem_of_expired_rounds (k : nat) (uri : string) (c : call) :
  c ∈ expired_rounds k uri -> c = RenewTokens \/ c = SessionGet uri.
Proof.
  induction k as [|k IH]; simpl; [by intros ?%elem_of_nil|].
  rewrite !elem_of_cons. intros [->|[->|H]]; auto.
Qed.

(** The URI [get_drive] asks for a drive id is the drive URI of the drive
    objects with that id. *)
Lemma get_drive_uri_of_id (self : DriveRoot) (i : string) :
  get_drive_uri self (Some i) false
  = (API_URI (client (account self)) +:+ "/drives/") +:+ i.
Proof.
  unfold get_drive_uri.
  by rewrite (append_assoc (API_URI (client (account self))) "/drive" "s/").
Qed.

(** X4: [refresh] on a drive object whose drive URI is the one of its id
    sends its requests to that URI with [?expand=children] and nowhere else;
    when it ends without raising, the object has the data of an OK response,
    and otherwise the object is as it was; in both cases the object keeps its
    root and its drive URI is again the one of its id. *)
Theorem refresh_keeps_consistent (self : DriveObject) (script : list outcome) :
  consistent self ->
  let after := fst (fst (refresh self script)) in
  let ended := snd (fst (refresh self script)) in
  let calls := snd (refresh self script) in
  consistent after
  /\ root after = root self
  /\ (forall c, c ∈ calls ->
      c = RenewTokens \/ c = SessionGet (drive_uri self +:+ "?expand=children"))
  /\ (ended <> Some (Return tt) -> after = self)
  /\ (ended = Some (Return tt) ->
      exists resp, Return resp ∈ script /\ status_code resp = codes_ok
                   /\ _data after = json resp).
Proof.
  intros (i & Hid & Huri) after ended calls.
  unfold after, ended, calls, refresh. clear after ended calls.
  rewrite Hid. unfold get_drive_with, get_drive.
  assert (Hu : get_drive_uri (root self) (Some i) true
               = drive_uri self +:+ "?expand=children").
  { rewrite Huri, <- get_drive_uri_of_id. reflexivity. }
  rewrite Hu.
  destruct (retry_on_expiry_shape (drive_uri self +:+ "?expand=children")
              (get_drive_body (root self)) script
              (DrivesFacts.get_drive_body_not_expired (root self)) [])
    as (k & _ & Hk).
  assert (Hcalls : forall tail c,
            (forall c', c' ∈ tail ->
               c' = SessionGet (drive_uri self +:+ "?expand=children")) ->
            c ∈ [] ++ expired_rounds k (drive_uri self +:+ "?expand=children") ++ tail ->
            c = RenewTokens \/ c = SessionGet (drive_uri self +:+ "?expand=children")).
  { intros tail c Htail. simpl. rewrite elem_of_app.
    intros [H|H]; [by apply elem_of_expired_rounds in H|right; by apply Htail]. }
  destruct (script !! k) as [o|] eqn:Hok.
  - destruct Hk as [_ ->].
    destruct (bind o (get_drive_body (root self))) as [new_drive|e] eqn:Hr; simpl.
    + apply get_drive_body_Return in Hr as (resp & j & -> & Hs & Hj & ->).
      split; [by apply built_consistent|]. split; [reflexivity|].
      split; [intros c; apply Hcalls; by intros c' ->%list_elem_of_singleton|].
      split; [done|]. intros _. exists resp.
      split; [by apply list_elem_of_lookup_2 in Hok|by split].
    + split; [by exists i|]. split; [reflexivity|].
      split; [intros c; apply Hcalls; by intros c' ->%list_elem_of_singleton|].
      split; [done|discriminate].
  - destruct Hk as [_ ->]. simpl.
    split; [by exists i|]. split; [reflexivity|].
    split; [|split; [done|discriminate]].
    intros c Hc. apply (Hcalls [] c); [by intros c' ?%elem_of_nil|].
    simpl in *. by rewrite app_nil_r.
Qed.

Lemma refresh_keeps_consistent_witness :
  consistent drive0
  /\ fst (fst (refresh drive0
                 [expired; Return {| status_code := 200; json := drive_a' |}]))
     = built root0 drive_a' "a"
  /\ consistent
       (fst (fst (refresh drive0
                    [expired; Return {| status_code := 200; json := drive_a' |}]))).
Proof.
  assert (H : consistent drive0) by (exists "a"; by split).
  split; [exact H|]. split; [reflexivity|].
  exact (proj1 (refresh_keeps_consistent drive0
                  [expired; Return {| status_code := 200; json := drive_a' |}] H)).
Defined.

(** *** The dictionary of [get_all_drives] *)

Lemma collect_drives_app (self : DriveRoot) (a b : list Json.value) :
  forall acc, collect_drives self (a ++ b) acc
              = bind (collect_drives self a acc) (collect_drives self b).
Proof.
  induction a as [|d a IH]; intros acc; simpl; [reflexivity|].
  destruct (DriveObject_init self d) as [obj|e] eqn:H; simpl; [|reflexivity].
  apply DrivesFacts.DriveObject_init_Return in H as (j & Hj & ->).
  rewrite Hj. simpl. apply IH.
Qed.

Lemma collect_drives_untouched (self : DriveRoot) (i : string) (ds : list Json.value) :
  id_absent i ds ->
  forall acc drives, collect_drives self ds acc = Return drives ->
                     drives !! i = acc !! i.
Proof.
  induction 1 as [|d ds Hd _ IH]; intros acc drives; simpl.
  - by intros [= <-].
  - destruct (DriveObject_init self d) as [obj|e] eqn:H; simpl; [|discriminate].
    apply DrivesFacts.DriveObject_init_Return in H as (j & Hj & ->).
    rewrite Hj. simpl. intros Hrun. rewrite (IH _ _ Hrun).
    apply lookup_insert_ne. intros ->. by apply Hd.
Qed.

Lemma ids_of_cons (d : Json.value) (ds : list Json.value) (j : string) :
  getitem d "id" = Return (Json.Str j) -> ids_of (d :: ds) = j :: ids_of ds.
Proof.
  intros H.
  change (ids_of (d :: ds))
    with (match str_id d with Some y => y :: ids_of ds | None => ids_of ds end).
  unfold str_id. by rewrite H.
Qed.

Lemma collect_drives_dom (self : DriveRoot) (ds : list Json.value) :
  forall acc drives, collect_drives self ds acc = Return drives ->
    dom drives = dom acc ∪ list_to_set (ids_of ds)
    /\ length (ids_of ds) = length ds.
Proof.
  induction ds as [|d ds IH]; intros acc drives Hrun; simpl in Hrun.
  - injection Hrun as <-. split; [|reflexivity].
    change (dom acc = dom acc ∪ ∅). by rewrite (right_id_L ∅ (∪)).
  - destruct (DriveObject_init self d) as [obj|e] eqn:H; simpl in Hrun; [|discriminate].
    apply DrivesFacts.DriveObject_init_Return in H as (j & Hj & ->).
    rewrite Hj in Hrun. simpl in Hrun. destruct (IH _ _ Hrun) as [Hdom Hlen].
    rewrite (ids_of_cons d ds j Hj).
    split; [|simpl; by rewrite Hlen]. rewrite Hdom, dom_insert_L, list_to_set_cons.
    rewrite (comm_L (∪) {[j]} (dom acc)). by rewrite <- (assoc_L (∪)).
Qed.

Lemma size_list_to_set_le (l : list string) :
  size (list_to_set l : gset string) <= length l.
Proof.
  induction l as [|i l IH]; [by rewrite list_to_set_nil, size_empty|].
  rewrite list_to_set_cons, size_union_alt, size_singleton. simpl.
  pose proof (subseteq_size (list_to_set l ∖ {[i]}) (list_to_set l : gset string)
                (subseteq_difference_l _ _ _ (reflexivity _))) as H.
  lia.
Qed.

Lemma listed_body (self : DriveRoot) (k : nat) (resp : Response)
    (script : list outcome) :
  fst (get_all_drives self (replicate k expired ++ Return resp :: script))
  = Some (get_all_drives_body self resp).
Proof.
  unfold get_all_drives. rewrite DrivesFacts.retry_on_expiry_run; [reflexivity|].
  by apply (DrivesFacts.get_all_drives_body_not_expired self (Return resp)).
Qed.

(** X5: in the dictionary [get_all_drives] returns for an OK listing, the
    keys are the ids of the listing, the drive object under an id is the one
    of the last entry of the listing with that id, and there are at most as
    many drives as entries: as many when no id is listed twice. *)
Theorem get_all_drives_dictionary (self : DriveRoot) (k : nat) (resp : Response)
    (script : list outcome) (ds : list Json.value)
    (drives : gmap string DriveObject) :
  status_code resp = codes_ok ->
  getitem (json resp) "value" = Return (Json.Arr ds) ->
  fst (get_all_drives self (replicate k expired ++ Return resp :: script))
  = Some (Return drives) ->
  dom drives = list_to_set (ids_of ds)
  /\ length (ids_of ds) = length ds
  /\ size drives <= length ds
  /\ (NoDup (ids_of ds) -> size drives = length ds)
  /\ (forall pre d post i,
        ds = pre ++ d :: post ->
        getitem d "id" = Return (Json.Str i) ->
        id_absent i post ->
        drives !! i = Some (built self d i)).
Proof.
  intros Hs Hv. rewrite listed_body. unfold get_all_drives_body.
  rewrite Hs, Hv. simpl. intros [= Hrun].
  destruct (collect_drives_dom _ _ _ _ Hrun) as [Hdom Hlen].
  rewrite dom_empty_L, (left_id_L ∅ (∪)) in Hdom.
  split; [exact Hdom|]. split; [exact Hlen|].
  assert (Hsize : size drives = size (list_to_set (ids_of ds) : gset string))
    by (by rewrite <- Hdom, size_dom).
  split; [|split].
  - rewrite Hsize, <- Hlen. apply size_list_to_set_le.
  - intros Hnd. rewrite Hsize, <- Hlen. by apply size_list_to_set.
  - intros pre d post i -> Hi Hpost.
    rewrite collect_drives_app in Hrun.
    apply DrivesFacts.bind_Return_inv in Hrun as (acc & _ & Hrun).
    simpl in Hrun.
    assert (Hobj : DriveObject_init self d = Return (built self d i))
      by (apply DrivesFacts.DriveObject_init_Return; eauto).
    rewrite Hobj in Hrun. simpl in Hrun. rewrite Hi in Hrun. simpl in Hrun.
    rewrite (collect_drives_untouched self i post Hpost _ _ Hrun).
    apply lookup_insert_eq.
Qed.

Lemma get_all_drives_dictionary_witness :
  exists drives,
    fst (get_all_drives root0
           [expired;
            Return {| status_code := 200;
                      json := Json.Obj [("value",
                                Json.Arr [drive_a; drive_b; drive_a'])] |}])
    = Some (Return drives)
    /\ size drives <= 3
    /\ drives !! "a" = Some (built root0 drive_a' "a").
Proof.
  eexists. split; [reflexivity|].
  match goal with
  | |- context [size ?m] =>
      pose proof (get_all_drives_dictionary root0 1
                    {| status_code := 200;
                       json := Json.Obj [("value",
                                 Json.Arr [drive_a; drive_b; drive_a'])] |}
                    [] [drive_a; drive_b; drive_a'] m
                    eq_refl eq_refl eq_refl) as (_ & _ & Hsize & _ & Hlast)
  end.
  split; [exact Hsize|].
  apply (Hlast [drive_a; drive_b] drive_a' [] "a" eq_refl eq_refl).
  constructor.
Defined.

(** X6: what [get_all_drives] does with an OK response whose payload is not
    a listing of drives.  Without ['value'] it raises the [KeyError]; with a
    ['value'] that cannot be iterated it raises [TypeError]; at the first
    entry that has no ['id'], or whose ['id'] is not a string, it raises
    ([KeyError], [TypeError]) and returns no dictionary, whatever the entries
    before and after it are; an empty listing gives the empty dictionary. *)
Theorem get_all_drives_bad_payload (self : DriveRoot) (k : nat) (resp : Response)
    (script : list outcome) :
  status_code resp = codes_ok ->
  let listed :=
    fst (get_all_drives self (replicate k expired ++ Return resp :: script)) in
  (forall e, getitem (json resp) "value" = Raise e -> listed = Some (Raise e))
  /\ (forall v, getitem (json resp) "value" = Return v ->
      iter v = Raise TypeError -> listed = Some (Raise TypeError))
  /\ (forall pre d post e,
        getitem (json resp) "value" = Return (Json.Arr (pre ++ d :: post)) ->
        forallb has_str_id pre = true ->
        getitem d "id" = Raise e ->
        listed = Some (Raise e))
  /\ (forall pre d post v,
        getitem (json resp) "value" = Return (Json.Arr (pre ++ d :: post)) ->
        forallb has_str_id pre = true ->
        getitem d "id" = Return v ->
        (forall i, v <> Json.Str i) ->
        listed = Some (Raise TypeError))
  /\ (getitem (json resp) "value" = Return (Json.Arr []) ->
      listed = Some (Return ∅)).
Proof.
  intros Hs listed. unfold listed. rewrite listed_body.
  unfold get_all_drives_body. rewrite Hs. simpl.
  assert (Hpre : forall pre d post,
            forallb has_str_id pre = true ->
            exists acc, collect_drives self (pre ++ d :: post) ∅
                        = collect_drives self (d :: post) acc).
  { intros pre d post Hpre.
    destruct (DrivesFacts.collect_drives_total self pre Hpre ∅) as (acc & Hacc & _).
    exists acc. by rewrite collect_drives_app, Hacc. }
  repeat match goal with |- _ /\ _ => split end.
  - by intros e ->.
  - intros v -> Hv. simpl. by rewrite Hv.
  - intros pre d post e -> Hgood Hd. simpl.
    destruct (Hpre pre d post Hgood) as (acc & ->).
    simpl. unfold DriveObject_init. by rewrite Hd.
  - intros pre d post v -> Hgood Hd Hv. simpl.
    destruct (Hpre pre d post Hgood) as (acc & ->).
    simpl. unfold DriveObject_init. rewrite Hd. simpl.
    destruct v; try reflexivity. by destruct (Hv s).
  - by intros ->.
Qed.

Lemma get_all_drives_bad_payload_witness :
  fst (get_all_drives root0
         [expired;
          Return {| status_code := 200;
                    json := Json.Obj [("value",
                              Json.Arr [drive_a; nameless; drive_b])] |}])
  = Some (Raise (KeyError "id")).
Proof.
  exact (proj1 (proj2 (proj2 (get_all_drives_bad_payload root0 1
           {| status_code := 200;
              json := Json.Obj [("value", Json.Arr [drive_a; nameless; drive_b])] |}
           [] eq_refl)))
           [drive_a] nameless [drive_b] (KeyError "id") eq_refl eq_refl eq_refl).
Defined.

(** *** The operations without a retry loop *)

(** X7: [get_root_dir], [get_item] and [create_dir] send one request and
    make no other call: what the session raises, expired credentials included,
    reaches the caller without a renewal or a second request, unlike in
    [get_drive].  [get_root_dir] and [get_item] return the payload of the
    response whatever its status, an error status included; [get_item] with
    neither an id nor a path is [get_root_dir]; and [create_dir] posts to the
    URI of the parent item. *)
Theorem single_request_operations (self : DriveObject)
    (item_id item_path parent_id parent_path : option string)
    (list_children : bool) (name conflict_behavior : string) (o : outcome) :
  let shown := get_root_dir self list_children o in
  let got := get_item self item_id item_path list_children o in
  let made := create_dir self name parent_id parent_path conflict_behavior o in
  (exists uri, snd got = [SessionGet uri]
               /\ (list_children = false -> uri = get_item_uri self item_id item_path)
               /\ (list_children = true ->
                   uri = get_item_uri self item_id item_path +:+ "?expand=children"))
  /\ snd made = [SessionPost (get_item_uri self parent_id parent_path)
                   (create_dir_data name conflict_behavior)]
  /\ (forall resp, o = Return resp ->
      fst got = Return (json resp) /\ fst shown = Return (json resp))
  /\ (forall e, o = Raise e ->
      fst got = Raise e /\ fst shown = Raise e /\ fst made = Raise e)
  /\ get_item self None None list_children o = shown.
Proof.
  intros shown got made. unfold shown, got, made, get_item, get_root_dir, create_dir.
  split; [|split; [reflexivity|split; [|split]]].
  - eexists. split; [reflexivity|]. by destruct list_children.
  - by intros resp ->.
  - by intros e ->.
  - reflexivity.
Qed.

Lemma single_request_operations_witness :
  get_item drive0 (Some "missing") None false (Return not_found)
  = (Return (json not_found),
     [SessionGet "https://api.onedrive.com/v1.0/drives/a/items/missing"])
  /\ fst (create_dir drive0 "docs" (Some "p1") None "fail" expired)
     = Raise OneDriveTokenExpiredError.
Proof.
  split; [reflexivity|].
  exact (proj2 (proj2 (proj1 (proj2 (proj2 (proj2
           (single_request_operations drive0 None None (Some "p1") None true
              "docs" "fail" expired))))
           OneDriveTokenExpiredError eq_refl))).
Defined.

End DrivesMoreFacts.

(** ** The daemon's entry point: further properties *)

Module CliMoreFacts.
Import CliMain CliMore.

Section DaemonMoreFacts.
Context {Drive Task Key Pool : Type} `{!TaskStore Drive Task Key Pool}.
Variable CONFIG_DIR : string.

Local Abbreviation World := (@World Drive Task Key Pool).
Local Abbreviation event := (@event Task Key).
Local Abbreviation tick := (@tick Pool).

(** *** [start_task_workers] *)

(** X8: [start_task_workers] starts [num_consumers] workers and does nothing
    else: none when the number is 0, and otherwise workers named Worker0,
    Worker1, ... in this order, no two with the same name. *)
Theorem start_task_workers_names (w : World) :
  exists names,
    start_task_workers w = emits (map StartWorker names) w
    /\ length names = num_consumers w
    /\ NoDup names
    /\ (forall i, i < num_consumers w -> names !! i = Some ("Worker" +:+ pretty i))
    /\ (num_consumers w = 0 -> start_task_workers w = w).
Proof.
  exists (map (fun j => "Worker" +:+ pretty j) (seq 0 (num_consumers w))).
  unfold start_task_workers. rewrite CliFacts.start_workers_from_emits.
  split; [unfold worker_starts; by rewrite map_map|].
  split; [by rewrite length_map, length_seq|].
  split.
  - assert (Hinj : Inj (=) (=) (fun j : nat => "Worker" +:+ pretty j)).
    { intros i j Hij. apply (inj (String.app "Worker")) in Hij.
      by apply (inj pretty). }
    change (map ?f ?l) with (f <$> l).
    apply (NoDup_fmap_2 _). apply NoDup_seq.
  - split.
    + intros i Hi. change (map ?f ?l) with (f <$> l).
      rewrite list_lookup_fmap, lookup_seq_lt by exact Hi. reflexivity.
    + intros ->. apply CliFacts.emits_nil.
Qed.

(** *** [add_initial_tasks] *)

(** When the root task of every drive is pending, a run only asks. *)
Lemma add_initial_tasks_for_all_pending (drives : list (string * Drive)) :
  forall w : World,
    (forall kd, kd ∈ drives -> has_pending_task (pool w) (root_key kd) = true) ->
    add_initial_tasks_for drives w = emits (all_pending drives) w.
Proof.
  induction drives as [|kd drives IH]; intros w Hall.
  - unfold add_initial_tasks_for, all_pending. simpl.
    by rewrite CliFacts.emits_nil.
  - unfold add_initial_tasks_for. simpl.
    fold (add_initial_tasks_for drives (add_initial_task w kd)).
    rewrite (CliFacts.add_initial_task_pending w kd)
      by (apply Hall, elem_of_cons; by left).
    rewrite IH; [by rewrite CliFacts.emit_emits, CliFacts.emits_emits|].
    intros kd' Hkd'. simpl. apply Hall, elem_of_cons. by right.
Qed.

(** After a run, the root task of every drive is pending. *)
Lemma add_initial_tasks_for_seeds (drives : list (string * Drive)) :
  add_task_keeps_pending (Pool := Pool) ->
  add_root_task_makes_pending (Pool := Pool) ->
  forall (w : World) kd, kd ∈ drives ->
    has_pending_task (pool (add_initial_tasks_for drives w)) (root_key kd) = true.
Proof.
  intros Hkeep Hmake.
  induction drives as [|kd0 drives IH]; intros w kd Hkd;
    [by apply elem_of_nil in Hkd|].
  unfold add_initial_tasks_for. simpl.
  fold (add_initial_tasks_for drives (add_initial_task w kd0)).
  apply elem_of_cons in Hkd as [->|Hkd]; [|by apply IH].
  destruct (CliFacts.add_initial_tasks_for_events drives (add_initial_task w kd0))
    as (added & _ & _ & _ & _ & _ & Hk & _).
  apply (Hk Hkeep).
  destruct (has_pending_task (pool w) (root_key kd0)) eqn:Hp.
  - by rewrite (CliFacts.add_initial_task_pending w kd0 Hp).
  - rewrite (CliFacts.add_initial_task_absent w kd0 Hp). simpl. apply Hmake.
Qed.

(** X9: for a task pool in which adding a root task makes its key pending
    and adding a task leaves pending keys pending, a run of
    [add_initial_tasks] leaves the root task of every drive of the drive store
    pending, and a second run right after it only asks: it adds no task and
    leaves the pool as it is. *)
Theorem add_initial_tasks_twice (w : World) :
  add_task_keeps_pending (Pool := Pool) ->
  add_root_task_makes_pending (Pool := Pool) ->
  (forall kd, kd ∈ all_drives w ->
     has_pending_task (pool (add_initial_tasks w)) (root_key kd) = true)
  /\ add_initial_tasks (add_initial_tasks w)
     = emits (all_pending (all_drives w)) (add_initial_tasks w)
  /\ pool (add_initial_tasks (add_initial_tasks w)) = pool (add_initial_tasks w).
Proof.
  intros Hkeep Hmake.
  assert (Hseeded : forall kd, kd ∈ all_drives w ->
            has_pending_task (pool (add_initial_tasks w)) (root_key kd) = true)
    by (intros kd; by apply add_initial_tasks_for_seeds).
  assert (Hdrives : all_drives (add_initial_tasks w) = all_drives w).
  { unfold add_initial_tasks.
    by destruct (CliFacts.add_initial_tasks_for_events (all_drives w) w)
      as (added & _ & _ & _ & _ & _ & _ & _ & Hd). }
  assert (Hagain : add_initial_tasks (add_initial_tasks w)
                   = emits (all_pending (all_drives w)) (add_initial_tasks w)).
  { unfold add_initial_tasks at 1. rewrite Hdrives.
    by apply add_initial_tasks_for_all_pending. }
  split; [exact Hseeded|]. split; [exact Hagain|]. by rewrite Hagain.
Qed.

(** *** [fix_log_args] and the files *)


(** X10: after [fix_log_args], the log file that the returned arguments name,
    if they name one, is the one asked for, could be opened and is an empty
    file; when they name none, no file has changed; no file other than the one
    asked for changes in any case, and the log level is the one given. *)
Theorem fix_log_args_files (args : Args) (w : World) :
  let run := fix_log_args args w in
  (forall p, log_file (fst run) = Some p ->
     log_file args = Some p /\ open_error w p = None
     /\ files (snd run) !! p = Some "")
  /\ (log_file (fst run) = None -> files (snd run) = files w)
  /\ (forall other, log_file args <> Some other ->
      files (snd run) !! other = files w !! other)
  /\ log_level (fst run) = log_level args.
Proof.
  intros run. unfold run, fix_log_args.
  destruct (log_file args) as [path|] eqn:Hfile;
    [destruct (open_error w path) as [msg|] eqn:Hopen|]; simpl; rewrite ?Hfile.
  - split; [done|]. by split.
  - split; [|split; [done|split; [|reflexivity]]].
    + intros p [= <-]. split; [reflexivity|]. split; [exact Hopen|].
      apply lookup_insert_eq.
    + intros other Hne. apply lookup_insert_ne. by intros ->.
  - split; [done|]. by split.
Qed.

(** *** [main] *)





End DaemonMoreFacts.

End CliMoreFacts.

(** ** The task pool of the specification and the sample worlds, continued *)

Module CliMoreSamples.
Import CliMain CliMore TaskPoolModel Samples.

Lemma model_add_root_task_makes_pending :
  add_root_task_makes_pending (Pool := TaskPool).
Proof.
  intros p d. simpl. unfold add_task.
  destruct (has_pending_task p (task_key (root_task d))) eqn:Hp; [exact Hp|].
  unfold has_pending_task. rewrite existsb_app. simpl.
  unfold has_key. simpl. rewrite !String.eqb_refl. simpl. apply orb_true_r.
Qed.

Lemma start_task_workers_names_witness :
  exists names : list string,
    names !! 1 = Some "Worker1" /\ length names = 2 /\ NoDup names.
Proof.
  destruct (CliMoreFacts.start_task_workers_names world0)
    as (names & _ & Hlen & Hnd & Hname & _).
  exists names. split; [exact (Hname 1 ltac:(simpl; lia))|]. by split.
Defined.

Lemma add_initial_tasks_twice_witness :
  pool (add_initial_tasks world0) = [root_task drive_a; root_task drive_b]
  /\ pool (add_initial_tasks (add_initial_tasks world0))
     = pool (add_initial_tasks world0).
Proof.
  split; [reflexivity|].
  exact (proj2 (proj2 (CliMoreFacts.add_initial_tasks_twice world0
                         TaskPoolModelFacts.add_task_keeps_pending
                         model_add_root_task_makes_pending))).
Defined.

Lemma fix_log_args_files_witness :
  log_file (fst (fix_log_args {| log_level := INFO;
                                  log_file := Some "/root/onedrive.log" |} world0))
  = None
  /\ files (snd (fix_log_args {| log_level := INFO;
                                 log_file := Some "/root/onedrive.log" |} world0))
     = files world0.
Proof.
  split; [reflexivity|].
  exact (proj1 (proj2 (CliMoreFacts.fix_log_args_files
                         {| log_level := INFO; log_file := Some "/root/onedrive.log" |}
                         world0)) eq_refl).
Defined.



End CliMoreSamples.

(** ** The test helpers: further properties *)

Module TestsMoreFacts.
Import Tests TestsMore.

Lemma is_upper_not_lower (c : N) :
  is_upper c = true -> is_lower c = false /\ is_digit c = false
                       /\ (c =? underscore)%N = false.
Proof.
  unfold is_upper, is_lower, is_digit, underscore.
  intros [H1 H2]%andb_prop. apply N.leb_le in H1, H2.
  repeat split.
  - apply andb_false_iff. left. apply N.leb_gt. lia.
  - apply andb_false_iff. right. apply N.leb_gt. lia.
  - apply N.eqb_neq. lia.
Qed.

(** One step of the substitution. *)
Lemma sub_from_cons (prev : option N) (c : N) (rest : str) :
  sub_from prev (c :: rest)
  = (if camel_to_underscore prev c (head rest) then [underscore; c] else [c])
    ++ sub_from (Some c) rest.
Proof. reflexivity. Qed.

Lemma camel_to_underscore_upper (prev : option N) (c : N) (next : option N) :
  camel_to_underscore prev c next = true -> is_upper c = true.
Proof.
  unfold camel_to_underscore. destruct (is_upper c); [done|].
  by rewrite !andb_false_r.
Qed.

Lemma camel_to_underscore_start (c : N) (next : option N) :
  camel_to_underscore None c next = false.
Proof. reflexivity. Qed.

Lemma sub_from_text (s : str) :
  forall prev, s `sublist_of` sub_from prev s
               /\ length s <= length (sub_from prev s) <= 2 * length s.
Proof.
  induction s as [|c s IH]; intros prev; [by repeat constructor|].
  rewrite sub_from_cons. destruct (IH (Some c)) as (Hsub & Hlo & Hhi).
  destruct (camel_to_underscore prev c (head s)); simpl.
  - split; [by apply sublist_cons, sublist_skip|lia].
  - split; [by apply sublist_skip|lia].
Qed.

(** X13: the substitution of [to_underscore_name] only inserts underscores:
    the string given is found, in order, in the result; the result starts
    with the first character of the string; and it has at least as many
    characters as the string and fewer than twice as many (none if the string
    is empty). *)
Theorem camel_to_underscore_sub_text (s : str) :
  s `sublist_of` camel_to_underscore_sub s
  /\ head (camel_to_underscore_sub s) = head s
  /\ length s <= length (camel_to_underscore_sub s) <= 2 * length s - 1.
Proof.
  unfold camel_to_underscore_sub. split; [apply sub_from_text|].
  destruct s as [|c s]; [by repeat split|].
  rewrite sub_from_cons, camel_to_underscore_start.
  destruct (sub_from_text s (Some c)) as (_ & Hlo & Hhi).
  split; [reflexivity|]. simpl. lia.
Qed.

Lemma sub_from_upper (s : str) :
  forall prev,
    match prev with Some p => is_upper p = true | None => True end ->
    forallb is_upper s = true -> sub_from prev s = s.
Proof.
  induction s as [|c s IH]; intros prev Hprev Hs; [reflexivity|].
  simpl in Hs. apply andb_prop in Hs as [Hc Hs].
  rewrite sub_from_cons, (IH (Some c) Hc Hs).
  assert (Hm : camel_to_underscore prev c (head s) = false); [|by rewrite Hm].
  unfold camel_to_underscore. apply orb_false_iff. split.
  - destruct prev as [p|]; [|reflexivity].
    destruct (is_upper_not_lower p Hprev) as (-> & -> & _). reflexivity.
  - destruct s as [|n s]; simpl; [by rewrite andb_false_r|].
    simpl in Hs. apply andb_prop in Hs as [Hn _].
    destruct (is_upper_not_lower n Hn) as (-> & _). by rewrite andb_false_r.
Qed.

(** X14: a string of capital letters only, an acronym, gets no underscore,
    and neither does a string without a capital letter: on both,
    [to_underscore_name] is [lower]. *)
Theorem to_underscore_name_unsplit (lower : str -> str) (s : str) :
  forallb is_upper s = true \/ forallb (fun c => negb (is_upper c)) s = true ->
  camel_to_underscore_sub s = s /\ to_underscore_name lower s = lower s.
Proof.
  intros H.
  assert (Hsub : camel_to_underscore_sub s = s).
  { destruct H as [H|H].
    - by apply sub_from_upper.
    - by apply TestsFacts.sub_from_no_upper. }
  split; [exact Hsub|]. unfold to_underscore_name. by rewrite Hsub.
Qed.

Lemma to_underscore_name_unsplit_witness :
  to_underscore_name ascii_lower [72; 84; 84; 80]%N = [104; 116; 116; 112]%N.
Proof.
  exact (proj2 (to_underscore_name_unsplit ascii_lower [72; 84; 84; 80]%N
                  (or_introl eq_refl))).
Defined.

Lemma strip_sub_from (s : str) :
  no_underscore s = true ->
  forall prev, strip_underscores (sub_from prev s) = s.
Proof.
  induction s as [|c s IH]; intros Hs prev; [reflexivity|].
  simpl in Hs. apply andb_prop in Hs as [Hc Hs].
  rewrite sub_from_cons. unfold strip_underscores in *.
  rewrite List.filter_app, (IH Hs (Some c)).
  destruct (camel_to_underscore prev c (head s)); simpl; by rewrite Hc.
Qed.

(** X15: on a string without underscores the substitution can be undone:
    taking the underscores out of its result gives the string back. *)
Theorem strip_underscores_sub (s : str) :
  no_underscore s = true ->
  strip_underscores (camel_to_underscore_sub s) = s.
Proof. intros Hs. by apply strip_sub_from. Qed.

Lemma strip_underscores_sub_witness :
  strip_underscores (camel_to_underscore_sub
                       [72; 84; 84; 80; 82; 101; 115; 112; 111; 110; 115; 101]%N)
  = [72; 84; 84; 80; 82; 101; 115; 112; 111; 110; 115; 101]%N.
Proof.
  exact (strip_underscores_sub
           [72; 84; 84; 80; 82; 101; 115; 112; 111; 110; 115; 101]%N eq_refl).
Defined.

(** In the result for a string without underscores, from any position on,
    an underscore is followed by a capital letter. *)
Lemma sub_from_underscores (s : str) :
  no_underscore s = true ->
  forall prev pre post,
    sub_from prev s = pre ++ underscore :: post ->
    exists c post', post = c :: post' /\ is_upper c = true.
Proof.
  induction s as [|c s IH]; intros Hs prev pre post Heq.
  - by destruct pre.
  - simpl in Hs. apply andb_prop in Hs as [Hc Hs].
    apply negb_true_iff, N.eqb_neq in Hc.
    rewrite sub_from_cons in Heq.
    destruct (camel_to_underscore prev c (head s)) eqn:Hm; simpl in Heq.
    + destruct pre as [|x pre]; simpl in Heq.
      * injection Heq as <-. eexists _, _. split; [reflexivity|].
        exact (camel_to_underscore_upper _ _ _ Hm).
      * injection Heq as _ Heq. destruct pre as [|y pre]; simpl in Heq.
        -- injection Heq as Heq _. by destruct Hc.
        -- injection Heq as _ Heq. exact (IH Hs _ _ _ Heq).
    + destruct pre as [|x pre]; simpl in Heq.
      * injection Heq as Heq _. by destruct Hc.
      * injection Heq as _ Heq. exact (IH Hs _ _ _ Heq).
Qed.

(** X16: for a string without underscores, every underscore of the result of
    the substitution stands before a capital letter and after some character:
    the result neither starts nor ends with an underscore, and has no two
    underscores in a row. *)
Theorem sub_underscores_before_capitals (s : str) :
  no_underscore s = true ->
  underscores_before_capitals (camel_to_underscore_sub s).
Proof.
  intros Hs pre post Heq. split.
  - intros ->. destruct s as [|c s]; [discriminate|].
    unfold camel_to_underscore_sub in Heq.
    rewrite sub_from_cons, camel_to_underscore_start in Heq.
    simpl in Hs, Heq. apply andb_prop in Hs as [Hc _].
    apply negb_true_iff, N.eqb_neq in Hc. injection Heq as Heq _. by destruct Hc.
  - exact (sub_from_underscores s Hs None pre post Heq).
Qed.

Lemma sub_underscores_before_capitals_witness :
  camel_to_underscore_sub [99; 97; 109; 101; 108; 67; 97; 115; 101]%N
  = ([99; 97; 109; 101; 108] ++ underscore :: [67; 97; 115; 101])%N
  /\ is_upper 67 = true.
Proof.
  split; [reflexivity|].
  destruct (sub_underscores_before_capitals
              [99; 97; 109; 101; 108; 67; 97; 115; 101]%N eq_refl
              [99; 97; 109; 101; 108]%N [67; 97; 115; 101]%N eq_refl)
    as (_ & c & post' & [= <- _] & Hc).
  exact Hc.
Defined.

(** X17: on ASCII text, where [str.lower] is [ascii_lower], the result of
    [to_underscore_name] has no capital letter, has the length of the result
    of the substitution, and is left as it is by a second application. *)
Theorem to_underscore_name_ascii (s : str) :
  is_ascii s = true ->
  forallb (fun c => negb (is_upper c)) (to_underscore_name ascii_lower s) = true
  /\ length (to_underscore_name ascii_lower s) = length (camel_to_underscore_sub s)
  /\ to_underscore_name ascii_lower (to_underscore_name ascii_lower s)
     = to_underscore_name ascii_lower s.
Proof.
  intros _. split; [apply TestsFacts.ascii_lower_no_upper|].
  split; [unfold to_underscore_name, ascii_lower; apply length_map|].
  unfold to_underscore_name at 2 3.
  rewrite (TestsFacts.to_underscore_name_of_lowered ascii_lower _
             (TestsFacts.ascii_lower_no_upper (camel_to_underscore_sub s))).
  apply TestsFacts.ascii_lower_idempotent.
Qed.

Lemma to_underscore_name_ascii_witness :
  is_ascii [99; 97; 109; 101; 108; 67; 97; 115; 101]%N = true
  /\ to_underscore_name ascii_lower
       (to_underscore_name ascii_lower [99; 97; 109; 101; 108; 67; 97; 115; 101]%N)
     = to_underscore_name ascii_lower [99; 97; 109; 101; 108; 67; 97; 115; 101]%N.
Proof.
  split; [reflexivity|].
  exact (proj2 (proj2 (to_underscore_name_ascii
                         [99; 97; 109; 101; 108; 67; 97; 115; 101]%N eq_refl))).
Defined.

End TestsMoreFacts.
